(** * god: a sharded, write-ahead-logged key-value store and its ring node

    A shallow embedding of [god.go] (package [god]: the durable shard store
    and its command processor) and of the ring node (package [discord]:
    [Node.RemoveNode], [Node.GetSuccessor], [Node.pingPredecessor]),
    followed by the properties of the command protocol, of shard routing,
    of write-ahead logging and replay, and of ring maintenance.

    Conventions.
    - Go [int], [uint32] and the [Command]/[Result] integer types are [Z].
    - A Go slice of strings is a [list string]; the [nil] slice is [[]]
      (the code never builds an empty non-nil slice).
    - A panic is the [Panic] outcome of the [result] monad; unbounded
      recursion is cut by fuel and reported as [Timeout].
    - Each shard ([*gotomic.Hash]) is a [gmap string string]; the slice
      [hashes] is a list updated by index.
    - The channel [logChannel] is the sequence of Operations sent on it, in
      order: this is what the writer goroutine encodes, in the same order,
      into the log file. *)

From Stdlib Require Import ZArith String Ascii List Lia.
From stdpp Require Import base gmap list strings pretty.

Open Scope Z_scope.
Open Scope string_scope.

(** ** Outcomes of Go code: a value, a panic, or fuel exhausted *)

Inductive result (A : Type) : Type :=
  | Ok (a : A)
  | Panic (msg : string)
  | Timeout.
Arguments Ok {A} a.
Arguments Panic {A} msg.
Arguments Timeout {A}.

#[global] Instance result_ret : MRet result := λ A a, Ok a.
#[global] Instance result_bind : MBind result := λ A B f m,
  match m with
  | Ok a => f a
  | Panic msg => Panic msg
  | Timeout => Timeout
  end.

(** [s[i]] on a slice: a run-time panic when [i] is out of range. *)
Definition index {A : Type} (s : list A) (i : nat) : result A :=
  match s !! i with
  | Some x => Ok x
  | None => Panic "runtime error: index out of range"
  end.

(** ** [fmt.Sprint] on strings and integers

    Operands are printed with their default formats and concatenated; a
    space is added between two operands when neither is a string. *)

Inductive operand : Type :=
  | Str (s : string)
  | Int (n : Z).

Definition is_Str (o : operand) : bool :=
  match o with Str _ => true | Int _ => false end.

Definition format_operand (o : operand) : string :=
  match o with Str s => s | Int n => pretty n end.

Fixpoint Sprint_from (prev : operand) (rest : list operand) : string :=
  match rest with
  | [] => ""
  | o :: rest' =>
      (if is_Str prev || is_Str o then "" else " ")
        ++ format_operand o ++ Sprint_from o rest'
  end.

Definition Sprint (operands : list operand) : string :=
  match operands with
  | [] => ""
  | o :: rest => format_operand o ++ Sprint_from o rest
  end.

(** ** The hash interface of the shard maps

    [gotomic.Hashable]: a key exposes a [uint32] hash code.  The hash
    function of [gotomic.StringKey] is an external collaborator; the store is
    verified for every implementation of the interface. *)

Class Hashable (K : Type) : Type := {
  HashCode : K → Z;
  HashCode_uint32 : ∀ k, 0 ≤ HashCode k < 2 ^ 32
}.

(** The operations of a [gotomic.Hash] used by the store, on one shard.
    The hash code only speeds the lookup up; entries are matched by key. *)
Definition GetHC (hash : gmap string string) (hc : Z) (key : string)
  : option string := hash !! key.

Definition PutHC (hash : gmap string string) (hc : Z) (key v : string)
  : gmap string string * option string := (<[key := v]> hash, hash !! key).

Definition DeleteHC (hash : gmap string string) (hc : Z) (key : string)
  : gmap string string * option string := (delete key hash, hash !! key).

(** [Hash.Each]: the keys of a shard, in the map's own order. *)
Definition Each_keys (hash : gmap string string) : list string :=
  (map_to_list hash).*1.

Module God.

(** ** Constants and types of [god.go] *)

Definition backlog : Z := Z.shiftl 1 10.
Definition snapshot : string := "snapshot.god".
Definition shards : Z := Z.shiftl 1 9.
Definition arity_error : string :=
  "Illegal number of parameters. Wanted %v but got %v.".

Definition Command : Type := Z.
Definition GET : Command := 0.
Definition PUT : Command := 1.
Definition DELETE : Command := 2.
Definition KEYS : Command := 3.

Definition Result : Type := Z.
Definition OK : Result := Z.shiftl 1 0.
Definition MISSING : Result := Z.shiftl 1 1.
Definition EXISTS : Result := Z.shiftl 1 2.
Definition UNKNOWN : Result := Z.shiftl 1 3.
Definition BAD : Result := Z.shiftl 1 4.
Definition ARITY : Result := Z.shiftl 1 5.

Record Operation : Type := mkOperation {
  Command_ : Command;
  Parameters : list string
}.

Record Response : Type := mkResponse {
  Result_ : Result;
  Parts : list string
}.

#[global] Instance Operation_eq_dec : EqDecision Operation.
Proof. solve_decision. Defined.
#[global] Instance Response_eq_dec : EqDecision Response.
Proof. solve_decision. Defined.

(** [Result.String] lists the names of the flags that are set; the list it
    prints: *)
Definition Result_flags (self : Result) : list string :=
  let flag (f : Result) (name : string) (rval : list string) :=
    if decide (Z.land self f = f) then (rval ++ [name])%list else rval in
  let rval : list string := [] in
  let rval := flag OK "OK" rval in
  let rval := flag MISSING "MISSING" rval in
  let rval := flag EXISTS "EXISTS" rval in
  let rval := flag UNKNOWN "UNKNOWN" rval in
  let rval := flag BAD "BAD" rval in
  let rval := flag ARITY "ARITY" rval in
  rval.

(** [fmt.Sprint] of a slice of strings: the elements separated by spaces,
    in square brackets. *)
Definition Sprint_strings (l : list string) : string :=
  "[" ++ String.concat " " l ++ "]".

Definition Result_String (self : Result) : string :=
  Sprint_strings (Result_flags self).

(** The arity table of the command protocol, as the specification lists it
    (GET=1, PUT=2, DELETE=1, KEYS=0); the code has these numbers inline in
    [get], [put], [del] and [keys]. *)
Definition spec_arity (c : Command) : option Z :=
  if decide (c = GET) then Some 1
  else if decide (c = PUT) then Some 2
  else if decide (c = DELETE) then Some 1
  else if decide (c = KEYS) then Some 0
  else None.

Record God : Type := mkGod {
  hashes : list (gmap string string);
  dir : string;
  logChannel : list Operation;
  doLog : bool
}.

Definition set_hashes (self : God) (hs : list (gmap string string)) : God :=
  {| hashes := hs; dir := dir self;
     logChannel := logChannel self; doLog := doLog self |}.

(** [self.logChannel <- o] *)
Definition send (self : God) (o : Operation) : God :=
  {| hashes := hashes self; dir := dir self;
     logChannel := logChannel self ++ [o]; doLog := doLog self |}.

Definition set_doLog (self : God) (b : bool) : God :=
  {| hashes := hashes self; dir := dir self;
     logChannel := logChannel self; doLog := b |}.

(** ** The storage directory

    A file holds the Operations its gob stream decodes to, followed by the
    error the decoder reports after the last of them: [io.EOF] for an intact
    file, anything else for a damaged one. *)

Inductive decode_error : Type :=
  | EOF
  | Corrupt (msg : string).

Record File : Type := mkFile {
  records : list Operation;
  trailer : decode_error
}.

Inductive error : Type :=
  | ErrNotExist
  | ErrOther (msg : string).

Definition IsNotExist (e : error) : bool :=
  match e with ErrNotExist => true | ErrOther _ => false end.

Section Store.
Context `{Hashable string}.

(** ** The command processor *)

Definition shard (self : God) (h : string)
  : result (nat * gmap string string * Z) :=
  let hashCode := HashCode h in
  let i := Z.to_nat (Z.land hashCode (shards - 1)) in
  hash ← index (hashes self) i;
  Ok (i, hash, hashCode).

Definition okArity (o : Operation) (wanted : Z) (r : Response)
  : bool * Response :=
  let n := Z.of_nat (length (Parameters o)) in
  if decide (n ≠ wanted)
  then (false,
        {| Result_ := Z.lor BAD ARITY;
           Parts := [Sprint [Str arity_error; Int wanted; Int n]] |})
  else (true, r).

Definition get (self : God) (o : Operation) (r : Response)
  : result (God * Response) :=
  let '(ok, r) := okArity o 1 r in
  if negb ok then Ok (self, r) else
  key ← index (Parameters o) 0;
  '(_, hash, hc) ← shard self key;
  match GetHC hash hc key with
  | Some t => Ok (self, {| Result_ := Z.lor OK EXISTS; Parts := [t] |})
  | None => Ok (self, {| Result_ := Z.lor OK MISSING; Parts := [] |})
  end.

Definition put (self : God) (o : Operation) (r : Response)
  : result (God * Response) :=
  let '(ok, r) := okArity o 2 r in
  if negb ok then Ok (self, r) else
  let self := if doLog self then send self o else self in
  key ← index (Parameters o) 0;
  '(i, hash, hc) ← shard self key;
  v ← index (Parameters o) 1;
  let '(hash', old) := PutHC hash hc key v in
  let self := set_hashes self (<[i := hash']> (hashes self)) in
  match old with
  | Some t => Ok (self, {| Result_ := Z.lor OK EXISTS; Parts := [t] |})
  | None => Ok (self, {| Result_ := Z.lor OK MISSING; Parts := [""] |})
  end.

Definition keys (self : God) (o : Operation) (r : Response)
  : result (God * Response) :=
  let '(ok, r) := okArity o 0 r in
  if negb ok then Ok (self, r) else
  let keys := concat (Each_keys <$> hashes self) in
  Ok (self, {| Result_ := OK; Parts := keys |}).

Definition del (self : God) (o : Operation) (r : Response)
  : result (God * Response) :=
  let '(ok, r) := okArity o 1 r in
  if negb ok then Ok (self, r) else
  key ← index (Parameters o) 0;
  '(i, hash, hc) ← shard self key;
  let '(hash', old) := DeleteHC hash hc key in
  let self := set_hashes self (<[i := hash']> (hashes self)) in
  match old with
  | Some t => Ok (self, {| Result_ := Z.lor OK EXISTS; Parts := [t] |})
  | None => Ok (self, {| Result_ := Z.lor OK MISSING; Parts := [""] |})
  end.

Definition Perform (self : God) (o : Operation) (r : Response)
  : result (God * Response) :=
  if decide (Command_ o = GET) then get self o r
  else if decide (Command_ o = PUT) then put self o r
  else if decide (Command_ o = DELETE) then del self o r
  else if decide (Command_ o = KEYS) then keys self o r
  else Ok (self, {| Result_ := UNKNOWN; Parts := [] |}).

(** A client issuing Operations one after the other, each with a fresh
    Response; the Responses are collected. *)
Fixpoint PerformAll (self : God) (os : list Operation)
  : result (God * list Response) :=
  match os with
  | [] => Ok (self, [])
  | o :: os' =>
      '(self, r) ← Perform self o {| Result_ := 0; Parts := [] |};
      '(self, rs) ← PerformAll self os';
      Ok (self, r :: rs)
  end.

(** ** Replay *)

(** The decode loop of [load]: one Response is reused across the file. *)
Fixpoint load_loop (self : God) (ops : list Operation) (response : Response)
  : result God :=
  match ops with
  | [] => Ok self
  | operation :: ops' =>
      '(self, response) ← Perform self operation response;
      load_loop self ops' response
  end.

Definition load (fs : gmap string File) (path : string) (self : God)
  : result (God * option error) :=
  match fs !! path with
  | None => Ok (self, Some ErrNotExist)
  | Some file =>
      self ← load_loop self (records file) {| Result_ := 0; Parts := [] |};
      (* if err != io.EOF { log.Println(err) } *)
      Ok (self, None)
  end.

(** [sort.Sort(sort.StringSlice(children))] *)
Fixpoint insert_sorted (x : string) (l : list string) : list string :=
  match l with
  | [] => [x]
  | y :: l' => if String.leb x y then x :: l else y :: insert_sorted x l'
  end.

Definition sort_strings (l : list string) : list string :=
  foldr insert_sorted [] l.

(** [regexp.Match("\\.log$", child)] *)
Definition match_log (child : string) : bool :=
  let n := String.length child in
  (4 <=? n)%nat && String.eqb (substring (n - 4) 4 child) ".log".

Fixpoint loadChildren (fs : gmap string File) (children : list string)
    (self : God) : result (God * option error) :=
  match children with
  | [] => Ok (self, None)
  | child :: children' =>
      if match_log child then
        '(self, err) ← load fs child self;
        match err with
        | Some e => Ok (self, Some e)
        | None => loadChildren fs children' self
        end
      else loadChildren fs children' self
  end.

(** [fs] is the content of the directory [self.dir]. *)
Definition loadAll (fs : gmap string File) (self : God)
  : result (God * option error) :=
  '(self, err) ← load fs snapshot self;
  match err with
  | Some e =>
      if negb (IsNotExist e) then Ok (self, Some e)
      else
        let children := sort_strings (elements (dom fs)) in
        loadChildren fs children self
  | None =>
      let children := sort_strings (elements (dom fs)) in
      loadChildren fs children self
  end.

Definition NewGod (fs : gmap string File) (dir : string)
  : result (option God * option error) :=
  let rval := {| hashes := replicate (Z.to_nat shards) ∅; dir := dir;
                 logChannel := []; doLog := false |} in
  '(rval, err) ← loadAll fs rval;
  match err with
  | Some e => Ok (None, Some e)
  | None => Ok (Some (set_doLog rval true), None)
  end.

(** The writer goroutine [log], started at time [now] (nanoseconds): it
    creates the log file and encodes every Operation received on the
    channel.  The directory once it has drained the channel: *)
Definition log (now : Z) (self : God) (fs : gmap string File)
  : gmap string File :=
  <[Sprint [Int now; Str ".log"] :=
      {| records := logChannel self; trailer := EOF |}]> fs.

(** ** Vocabulary of the statements *)

(** [NewGod] allocates [shards] shard maps and the slice never changes
    length afterwards. *)
Definition wf (self : God) : Prop :=
  length (hashes self) = Z.to_nat shards.

(** The shard a key is routed to. *)
Definition route (h : string) : nat :=
  Z.to_nat (Z.land (HashCode h) (shards - 1)).

(** The key-to-value mapping held by the store. *)
Definition value_of (self : God) (k : string) : option string :=
  hashes self !! route k ≫= λ hash, hash !! k.

(** The Response of [get], and of [put] and [del], by what the shard held
    for the key. *)
Definition read_response (old : option string) : Response :=
  match old with
  | Some t => {| Result_ := Z.lor OK EXISTS; Parts := [t] |}
  | None => {| Result_ := Z.lor OK MISSING; Parts := [] |}
  end.

Definition write_response (old : option string) : Response :=
  match old with
  | Some t => {| Result_ := Z.lor OK EXISTS; Parts := [t] |}
  | None => {| Result_ := Z.lor OK MISSING; Parts := [""] |}
  end.

(** The store after an effective [put] of Operation [o] = PUT [k; v], and
    after an effective [del] of key [k]. *)
Definition after_put (self : God) (o : Operation) (k v : string) : God :=
  set_hashes (if doLog self then send self o else self)
             (alter (<[k := v]>) (route k) (hashes self)).

Definition after_del (self : God) (k : string) : God :=
  set_hashes self (alter (delete k) (route k) (hashes self)).

(** [mutates k o]: [o] is a put or a delete of key [k] with the right
    number of parameters. *)
Definition mutates (k : string) (o : Operation) : bool :=
  match Parameters o with
  | [k'; _] => bool_decide (Command_ o = PUT ∧ k' = k)
  | [k'] => bool_decide (Command_ o = DELETE ∧ k' = k)
  | _ => false
  end.

(** [sent o]: [o] is a put with two parameters, the Operations [put] sends
    on the log channel.  [deletes o]: [o] is a delete with one parameter. *)
Definition sent (o : Operation) : bool :=
  bool_decide (Command_ o = PUT ∧ length (Parameters o) = 2%nat).

Definition deletes (o : Operation) : bool :=
  bool_decide (Command_ o = DELETE ∧ length (Parameters o) = 1%nat).

(** The Operations a directory replays, in replay order: those of the
    snapshot, then those of the log files in ascending order of name. *)
Definition file_records (fs : gmap string File) (name : string)
  : list Operation :=
  default [] (records <$> fs !! name).

Definition history (fs : gmap string File) : list Operation :=
  (file_records fs snapshot
   ++ concat (file_records fs
                <$> List.filter match_log
                      (sort_strings (elements (dom fs)))))%list.

(** Every key held by a shard is routed to that shard. *)
Definition placed (self : God) : Prop :=
  ∀ i hash k,
    hashes self !! i = Some hash → is_Some (hash !! k) → i = route k.

(** The statement that only BAD|ARITY carries more than one flag. *)
Definition only_BAD_ARITY_combines : Prop :=
  ∀ self o r self' r',
    wf self →
    Perform self o r = Ok (self', r') →
    (1 < length (Result_flags (Result_ r')))%nat →
    Result_ r' = Z.lor BAD ARITY.

(** The statement that replaying the recorded log rebuilds the mapping of
    the live run: a store is opened on an empty directory, serves [os],
    its log is written out, and a second store is opened on the result. *)
Definition replay_rebuilds (now : Z) (os : list Operation) : Prop :=
  ∀ live live' rs,
    NewGod ∅ "data" = Ok (Some live, None) →
    PerformAll live os = Ok (live', rs) →
    ∃ replayed,
      NewGod (log now live' ∅) "data" = Ok (Some replayed, None)
      ∧ ∀ k, value_of replayed k = value_of live' k.

End Store.

End God.

(** ** A concrete hash for running the store

    Any [Hashable] instance will do for the theorems below; concrete runs
    use Jenkins' one-at-a-time hash over the bytes of the key, with [uint32]
    wrap-around. *)

Definition wrap32 (x : Z) : Z := x mod 2 ^ 32.

Fixpoint oaat_loop (sum : Z) (s : string) : Z :=
  match s with
  | EmptyString => sum
  | String c s' =>
      let sum := wrap32 (sum + Z.of_N (N_of_ascii c)) in
      let sum := wrap32 (sum + Z.shiftl sum 10) in
      let sum := Z.lxor sum (Z.shiftr sum 6) in
      oaat_loop sum s'
  end.

Definition oaat (s : string) : Z :=
  let sum := oaat_loop 0 s in
  let sum := wrap32 (sum + Z.shiftl sum 3) in
  let sum := Z.lxor sum (Z.shiftr sum 11) in
  wrap32 (sum + Z.shiftl sum 15).

#[local] Instance oaat_Hashable : Hashable string.
Proof.
  refine {| HashCode := oaat |}.
  intros k. unfold oaat, wrap32. apply Z.mod_pos_bound. reflexivity.
Defined.

Module Discord.

(** ** The ring node (package [discord])

    The ring ([common.Ring]), hex encoding and the remote-call transport are
    external collaborators, consumed through the operations the node calls.
    [Remotes] yields the predecessor, the exact match (or nil) and the
    successor of a position. *)

Record Remote : Type := mkRemote {
  Pos : list Byte.byte;
  Addr : string
}.

#[global] Instance byte_eq_dec : EqDecision Byte.byte := Byte.byte_eq_dec.

#[global] Instance Remote_eq_dec : EqDecision Remote.
Proof. solve_decision. Defined.

Class Common (Ring : Type) : Type := {
  Remotes : Ring → list Byte.byte → Remote * option Remote * Remote;
  Remove : Remote → Ring → Ring;
  HexEncode : list Byte.byte → string
}.

(** [remote.Call(service, arg, &reply)]: the state of the network decides
    whether the call returns an error ([None], [false]) or a reply. *)
Class Transport (Net : Type) : Type := {
  Call_GetSuccessor : Net → Remote → list Byte.byte → Net * option Remote;
  Call_Ping : Net → Remote → Net * bool
}.

Definition created : Z := 0.
Definition started : Z := 1.
Definition stopped : Z := 2.

(** The fields of [Node] that ring maintenance reads or writes; the
    listener, the lock and the export table play no part in it. *)
Record Node (Ring : Type) : Type := mkNode {
  ring : Ring;
  position : list Byte.byte;
  addr : string;
  state : Z
}.
Arguments mkNode {Ring}.
Arguments ring {Ring}.
Arguments position {Ring}.
Arguments addr {Ring}.
Arguments state {Ring}.

Section Node.
Context {Ring Net : Type} `{Common Ring} `{Transport Net}.

Definition set_ring (self : Node Ring) (rg : Ring) : Node Ring :=
  {| ring := rg; position := position self;
     addr := addr self; state := state self |}.

Definition GetPosition (self : Node Ring) : list Byte.byte := position self.
Definition GetAddr (self : Node Ring) : string := addr self.

(** [Node.String]: [fmt.Sprintf("<%v@%v>", HexEncode(pos), addr)] *)
Definition String_ (self : Node Ring) : string :=
  "<" ++ HexEncode (GetPosition self) ++ "@" ++ GetAddr self ++ ">".

Definition RemoveNode (self : Node Ring) (remote : Remote)
  : result (Node Ring) :=
  if decide (Addr remote = GetAddr self) then
    Panic (String_ self ++ " is trying to remove itself from the routing!")
  else Ok (set_ring self (Remove remote (ring self))).

Definition GetPredecessor (self : Node Ring) : Remote :=
  let '(pred, _, _) := Remotes (ring self) (GetPosition self) in pred.

Fixpoint pingPredecessor (fuel : nat) (net : Net) (self : Node Ring)
  : result (Net * Node Ring) :=
  match fuel with
  | O => Timeout
  | S fuel' =>
      let predecessor := GetPredecessor self in
      match Call_Ping net predecessor with
      | (net, true) => Ok (net, self)
      | (net, false) =>
          self ← RemoveNode self predecessor;
          pingPredecessor fuel' net self
      end
  end.

Fixpoint GetSuccessor (fuel : nat) (net : Net) (self : Node Ring)
    (key : list Byte.byte) : result (Net * Node Ring * Remote) :=
  match fuel with
  | O => Timeout
  | S fuel' =>
      let '(predecessor, match_, successor) := Remotes (ring self) key in
      let predecessor :=
        match match_ with Some m => m | None => predecessor end in
      if decide (Addr predecessor ≠ GetAddr self) then
        match Call_GetSuccessor net predecessor key with
        | (net, Some reply) => Ok (net, self, reply)
        | (net, None) =>
            self ← RemoveNode self successor;
            GetSuccessor fuel' net self key
        end
      else Ok (net, self, successor)
  end.

End Node.

(** ** Gossip, joining and the lifecycle of a node

    More of the external collaborators: the operations of [common.Ring]
    that gossip uses, the placement function
    [common.NewRingNodes(nodes).GetSlot()], the width [murmur.Size] of a
    position, the remote calls of gossip and joining, and the listener and
    RPC server of the standard library.  An [error] is its message. *)

Class RingView (Ring : Type) : Type := {
  NewRing : Ring;
  Add : Remote → Ring → Ring;
  Nodes : Ring → list Remote;
  SetNodes : list Remote → Ring → Ring;
  Clean : list Byte.byte → list Byte.byte → Ring → Ring;
  GetSlot : list Remote → list Byte.byte;
  murmur_Size : nat
}.

Class Gossip (Net : Type) : Type := {
  (* successor.Call("Node.Notify", self.remote(), &newNodes) *)
  Call_Notify : Net → Remote → Remote → Net * option (list Remote);
  (* common.Switch.Call(addr, "Node.Ring", 0, &newNodes) *)
  Switch_Ring : Net → string → Net * (string + list Remote);
  (* common.Switch.Call(addr, "Node.Notify", self.remote(), &newNodes) *)
  Switch_Notify : Net → string → Remote → Net * (string + list Remote)
}.

Class Host (Net Listener Api : Type) : Type := {
  TCPAddr : Type;
  RpcServer : Type;
  findAddress : Net → Net * (string + string);
  ResolveTCPAddr : Net → string → Net * (string + TCPAddr);
  ListenTCP : Net → TCPAddr → Net * (string + Listener);
  Close : Net → Listener → Net;
  NewServer : RpcServer;
  (* the receiver is the node itself ([None]) or an exported api *)
  RegisterName : RpcServer → string → option Api → RpcServer * option string;
  (* go server.Accept(listener) *)
  Accept : Net → RpcServer → Listener → Net
}.

(** The [Node] struct with the two fields that ring maintenance leaves
    out; the lock guards fields and holds no data. *)
Record Server (Ring Listener Api : Type) : Type := mkServer {
  node : Node Ring;
  listener : option Listener;
  exports : gmap string Api
}.
Arguments mkServer {Ring Listener Api}.
Arguments node {Ring Listener Api}.
Arguments listener {Ring Listener Api}.
Arguments exports {Ring Listener Api}.

Inductive lifecycle_call (Api : Type) : Type :=
  | DoExport (name : string) (api : Api)
  | DoStart
  | DoStop.
Arguments DoExport {Api}.
Arguments DoStart {Api}.
Arguments DoStop {Api}.

Section Lifecycle.
Context {Ring Net Listener Api : Type}.
Context `{Common Ring} `{RingView Ring}.
Context `{Transport Net} `{Gossip Net} `{Host Net Listener Api}.


Definition set_addr (self : Node Ring) (a : string) : Node Ring :=
  {| ring := ring self; position := position self;
     addr := a; state := state self |}.

Definition set_state (self : Node Ring) (s : Z) : Node Ring :=
  {| ring := ring self; position := position self;
     addr := addr self; state := s |}.

Definition set_node (self : Server Ring Listener Api) (n : Node Ring)
  : Server Ring Listener Api :=
  {| node := n; listener := listener self; exports := exports self |}.

Definition setListener (self : Server Ring Listener Api) (l : Listener)
  : Server Ring Listener Api :=
  {| node := node self; listener := Some l; exports := exports self |}.

Definition NewNode (addr : string) : Server Ring Listener Api :=
  {| node := {| ring := NewRing;
                position := replicate murmur_Size Byte.x00;
                addr := addr;
                state := created |};
     listener := None;
     exports := ∅ |}.

Definition hasState (self : Node Ring) (s : Z) : bool :=
  bool_decide (state self = s).

(** [atomic.CompareAndSwapInt32(&self.state, old, neu)] *)
Definition changeState (self : Node Ring) (old neu : Z)
  : Node Ring * bool :=
  if decide (state self = old) then (set_state self neu, true)
  else (self, false).

(** The format has one verb and no operand: [fmt] prints the verb as
    missing. *)
Definition Export (self : Server Ring Listener Api) (name : string)
    (api : Api) : Server Ring Listener Api * option string :=
  if hasState (node self) created then
    ({| node := node self; listener := listener self;
        exports := <[name := api]> (exports self) |}, None)
  else
    (self, Some "%!v(MISSING) can only export when in state 'created'").


Definition remote (self : Node Ring) : Remote :=
  {| Pos := GetPosition self; Addr := GetAddr self |}.

(** [Close] on a nil listener returns an error, which [Stop] drops. *)
Definition Stop (net : Net) (self : Server Ring Listener Api)
  : Net * Server Ring Listener Api :=
  let '(n, ok) := changeState (node self) started stopped in
  let self := set_node self n in
  if ok then
    match listener self with
    | Some l => (Close net l, self)
    | None => (net, self)
    end
  else (net, self).

(** The loop of [Start] over the export table; Go visits a map in no fixed
    order, the model in the order of the map. *)
Fixpoint register_exports (server : RpcServer) (l : list (string * Api))
  : RpcServer * option string :=
  match l with
  | [] => (server, None)
  | (name, api) :: l' =>
      match RegisterName server name (Some api) with
      | (server, Some err) => (server, Some err)
      | (server, None) => register_exports server l'
      end
  end.

(** [Start] from the point where the address is known. *)
Definition Start_listen (net : Net) (self : Server Ring Listener Api)
  : Net * Server Ring Listener Api * option string :=
  match ResolveTCPAddr net (GetAddr (node self)) with
  | (net, inl err) => (net, self, Some err)
  | (net, inr addr) =>
      match ListenTCP net addr with
      | (net, inl err) => (net, self, Some err)
      | (net, inr l) =>
          let self := setListener self l in
          let server := NewServer in
          match RegisterName server "Node" None with
          | (server, Some err) => (net, self, Some err)
          | (server, None) =>
              match register_exports server (map_to_list (exports self)) with
              | (server, Some err) => (net, self, Some err)
              | (server, None) =>
                  let n := node self in
                  let self :=
                    set_node self (set_ring n (Add (remote n) (ring n))) in
                  (Accept net server l, self, None)
              end
          end
      end
  end.

(** The two periodic tasks that [Start] launches are not run here. *)
Definition Start (net : Net) (self : Server Ring Listener Api)
  : Net * Server Ring Listener Api * option string :=
  let '(n, ok) := changeState (node self) created started in
  if negb ok then
    (net, self,
     Some (String_ (node self)
           ++ " can only be started when in state 'created'"))
  else
    let self := set_node self n in
    if decide (GetAddr (node self) = "") then
      match findAddress net with
      | (net, inl err) => (net, self, Some err)
      | (net, inr foundAddr) =>
          Start_listen net (set_node self (set_addr (node self) foundAddr))
      end
    else Start_listen net self.

(** A caller using the lifecycle operations one after the other. *)
Definition lifecycle_step (net : Net) (self : Server Ring Listener Api)
    (c : lifecycle_call Api) : Net * Server Ring Listener Api :=
  match c with
  | DoExport name api => (net, (Export self name api).1)
  | DoStart => (Start net self).1
  | DoStop => Stop net self
  end.

Fixpoint lifecycle_run (net : Net) (self : Server Ring Listener Api)
    (cs : list (lifecycle_call Api)) : Net * Server Ring Listener Api :=
  match cs with
  | [] => (net, self)
  | c :: cs' =>
      let '(net, self) := lifecycle_step net self c in
      lifecycle_run net self cs'
  end.

(** Server side of gossip. *)
Definition Notify (self : Node Ring) (caller : Remote)
  : Node Ring * list Remote :=
  let self := set_ring self (Add caller (ring self)) in
  (self, Nodes (ring self)).

Definition notifySuccessor (net : Net) (self : Node Ring)
  : result (Net * Node Ring) :=
  let '(_, _, successor) := Remotes (ring self) (GetPosition self) in
  match Call_Notify net successor (remote self) with
  | (net, None) =>
      self ← RemoveNode self successor;
      Ok (net, self)
  | (net, Some newNodes) =>
      let predecessor := GetPredecessor self in
      let self := set_ring self (SetNodes newNodes (ring self)) in
      let self := set_ring self (Add predecessor (ring self)) in
      if decide (Addr predecessor ≠ GetAddr self) then
        Ok (net,
            set_ring self
              (Clean (Pos predecessor) (GetPosition self) (ring self)))
      else Ok (net, self)
  end.


End Lifecycle.

(** ** A concrete ring and network for running the node

    Members kept in ascending order of position; the neighbours of a
    position wrap around the ends.  The network is the list of addresses
    that do not answer; a reachable peer answers [GetSuccessor] with the
    successor in the given view of the ring. *)

Fixpoint bytes_ltb (a b : list Byte.byte) : bool :=
  match a, b with
  | [], [] => false
  | [], _ :: _ => true
  | _ :: _, [] => false
  | x :: a', y :: b' =>
      let nx := Byte.to_N x in
      let ny := Byte.to_N y in
      if (nx <? ny)%N then true
      else if (ny <? nx)%N then false
      else bytes_ltb a' b'
  end.

Definition nobody : Remote := {| Pos := []; Addr := "" |}.

Definition list_Remotes (l : list Remote) (pos : list Byte.byte)
  : Remote * option Remote * Remote :=
  let below := filter (λ r, bytes_ltb (Pos r) pos = true) l in
  let above := filter (λ r, bytes_ltb pos (Pos r) = true) l in
  let same := filter (λ r, Pos r = pos) l in
  (default (default nobody (last l)) (last below),
   head same,
   default (default nobody (head l)) (head above)).

Definition hex_digit (n : N) : ascii :=
  ascii_of_N (if (n <? 10)%N then 48 + n else 87 + n).

Definition hex_encode (bs : list Byte.byte) : string :=
  foldr (λ b s, let n := Byte.to_N b in
                String (hex_digit (n / 16)) (String (hex_digit (n mod 16)) s))
        "" bs.

#[global] Instance list_Common : Common (list Remote) := {|
  Remotes := list_Remotes;
  Remove := λ remote l, filter (λ r, r ≠ remote) l;
  HexEncode := hex_encode
|}.

Record sim_net : Type := mkNet {
  unreachable : list string;
  view : list Remote
}.

#[global] Instance sim_Transport : Transport sim_net := {|
  Call_GetSuccessor := λ net remote key,
    if decide (Addr remote ∈ unreachable net) then (net, None)
    else (net, Some (list_Remotes (view net) key).2);
  Call_Ping := λ net remote,
    (net, bool_decide (Addr remote ∉ unreachable net))
|}.

#[global] Instance list_RingView : RingView (list Remote) := {|
  NewRing := [];
  Add := λ remote l,
    (filter (λ r, bytes_ltb (Pos r) (Pos remote) = true) l
       ++ remote :: filter (λ r, bytes_ltb (Pos remote) (Pos r) = true) l)%list;
  Nodes := λ l, l;
  SetNodes := λ nodes _, nodes;
  Clean := λ from to l,
    filter (λ r, ¬ (bytes_ltb from (Pos r) = true
                    ∧ bytes_ltb (Pos r) to = true)) l;
  GetSlot := λ _, [Byte.x20];
  murmur_Size := 16
|}.

#[global] Instance sim_Gossip : Gossip sim_net := {|
  Call_Notify := λ net remote _,
    if decide (Addr remote ∈ unreachable net) then (net, None)
    else (net, Some (view net));
  Switch_Ring := λ net addr,
    if decide (addr ∈ unreachable net)
    then (net, inl "dial tcp: connection refused")
    else (net, inr (view net));
  Switch_Notify := λ net addr _,
    if decide (addr ∈ unreachable net)
    then (net, inl "dial tcp: connection refused")
    else (net, inr (view net))
|}.

(** A host on which an address in use is one listed as unreachable, and an
    RPC server that refuses a service name it already has. *)
#[global] Instance sim_Host : Host sim_net string unit := {|
  TCPAddr := string;
  RpcServer := list string;
  findAddress := λ net, (net, inr "127.0.0.1:9191");
  ResolveTCPAddr := λ net a, (net, inr a);
  ListenTCP := λ net a,
    if decide (a ∈ unreachable net)
    then (net, inl "listen tcp: address already in use")
    else (net, inr a);
  Close := λ net _, net;
  NewServer := [];
  RegisterName := λ server name _,
    if decide (name ∈ server)
    then (server, Some ("rpc: service already defined: " ++ name))
    else (name :: server, None);
  Accept := λ net _ _, net
|}.

End Discord.

(** ** Concrete states used to run the definitions *)

Definition op (c : God.Command) (ps : list string) : God.Operation :=
  {| God.Command_ := c; God.Parameters := ps |}.

Definition r0 : God.Response := {| God.Result_ := 0; God.Parts := [] |}.

(** The store [NewGod] builds on an empty directory. *)
Definition fresh : God.God :=
  {| God.hashes := replicate (Z.to_nat God.shards) ∅; God.dir := "data";
     God.logChannel := []; God.doLog := true |}.

Definition remoteA : Discord.Remote :=
  {| Discord.Pos := [Byte.x10]; Discord.Addr := "a:9191" |}.
Definition remoteB : Discord.Remote :=
  {| Discord.Pos := [Byte.x40]; Discord.Addr := "b:9191" |}.
Definition remoteC : Discord.Remote :=
  {| Discord.Pos := [Byte.x80]; Discord.Addr := "c:9191" |}.

(** Node A with the view {A, B, C}; B does not answer. *)
Definition nodeA : Discord.Node (list Discord.Remote) :=
  {| Discord.ring := [remoteA; remoteB; remoteC];
     Discord.position := Discord.Pos remoteA;
     Discord.addr := Discord.Addr remoteA;
     Discord.state := Discord.started |}.

Definition netB_down : Discord.sim_net :=
  {| Discord.unreachable := ["b:9191"];
     Discord.view := [remoteA; remoteB; remoteC] |}.

Definition netC_down : Discord.sim_net :=
  {| Discord.unreachable := ["c:9191"];
     Discord.view := [remoteA; remoteB; remoteC] |}.

(** A node that was just made, and the same node on an address in use. *)
Definition serverA : Discord.Server (list Discord.Remote) string unit :=
  Discord.NewNode "a:9191".

Definition serverB : Discord.Server (list Discord.Remote) string unit :=
  Discord.NewNode "b:9191".

(** A caller that exports, stops too early, starts, exports too late, and
    starts and stops again. *)
Definition calls : list (Discord.lifecycle_call unit) :=
  [Discord.DoExport "kv" (); Discord.DoStop; Discord.DoStart;
   Discord.DoExport "late" (); Discord.DoStart; Discord.DoStop;
   Discord.DoStop].

(** The store holding "1" for "a". *)
Definition one_key : God.God :=
  God.after_put fresh (op God.PUT ["a"; "1"]) "a" "1".

(** A session with gets, puts, a malformed put and an unknown command. *)
Definition session : list God.Operation :=
  [op God.PUT ["a"; "1"]; op God.GET ["a"]; op God.PUT ["b"; "2"];
   op God.PUT ["a"]; op 9 []; op God.PUT ["a"; "3"]; op God.KEYS []].

Definition put_a : God.Operation := op God.PUT ["a"; "1"].
Definition put_b : God.Operation := op God.PUT ["b"; "2"].

(** One log file, and the same records cut into a snapshot and two log
    files. *)
Definition one_log : gmap string God.File :=
  {["3.log" := {| God.records := [put_a; put_b; put_a];
                  God.trailer := God.EOF |}]}.

Definition three_files : gmap string God.File :=
  <["snapshot.god" := {| God.records := [put_a]; God.trailer := God.EOF |}]>
  (<["1.log" := {| God.records := [put_b]; God.trailer := God.EOF |}]>
   (<["2.log" := {| God.records := [put_a]; God.trailer := God.EOF |}]>
    (<["notes.txt" := {| God.records := [put_b];
                         God.trailer := God.EOF |}]> ∅))).

(** * Properties of the store *)

Import God.

Section StoreFacts.
Context `{Hashable string}.

Lemma route_lt (k : string) : (route k < Z.to_nat shards)%nat.
Proof.
  unfold route. change (shards - 1) with (Z.ones 9).
  rewrite Z.land_ones by lia.
  pose proof (Z.mod_pos_bound (HashCode k) (2 ^ 9) eq_refl) as Hb.
  change shards with (2 ^ 9). lia.
Qed.

Lemma shard_ok (self : God) (k : string) :
  wf self →
  ∃ hash, hashes self !! route k = Some hash
          ∧ shard self k = Ok (route k, hash, HashCode k).
Proof.
  intros Hwf.
  destruct (lookup_lt_is_Some_2 (hashes self) (route k)) as [hash Hh].
  { rewrite Hwf. apply route_lt. }
  exists hash. split; [done|].
  unfold shard, index. cbv zeta. fold (route k). by rewrite Hh.
Qed.

Lemma hashes_logged (self : God) (o : Operation) :
  hashes (if doLog self then send self o else self) = hashes self.
Proof. by destruct (doLog self). Qed.

Lemma alter_as_insert {A : Type} (f : A → A) (l : list A) (i : nat) (x : A) :
  l !! i = Some x → <[i := f x]> l = alter f i l.
Proof.
  revert i. induction l as [|y l IH]; intros [|i] Hi; simplify_eq/=; [done|].
  f_equal. by apply IH.
Qed.

(** What the mapping holds after a shard was altered at the key's route. *)
Lemma value_of_alter (self hs : God)
    (f : gmap string string → gmap string string) (k k' : string) :
  hashes hs = alter f (route k) (hashes self) →
  value_of hs k' =
    if decide (route k = route k')
    then hashes self !! route k' ≫= λ hash, f hash !! k'
    else value_of self k'.
Proof.
  intros Hhs. unfold value_of. rewrite Hhs. case_decide as Hr.
  - rewrite Hr, list_lookup_alter_eq. by destruct (hashes self !! route k').
  - by rewrite list_lookup_alter_ne.
Qed.

Lemma value_of_after_put (self : God) (o : Operation) (k v k' : string) :
  wf self →
  value_of (after_put self o k v) k' =
    if decide (k = k') then Some v else value_of self k'.
Proof.
  intros Hwf.
  rewrite (value_of_alter self _ (<[k := v]>) k k') by done.
  destruct (shard_ok self k' Hwf) as (hash & Hh & _).
  case_decide as Hr; case_decide as Hk; subst.
  - rewrite Hh. simpl. apply lookup_insert_eq.
  - unfold value_of. rewrite Hh. simpl. by apply lookup_insert_ne.
  - done.
  - done.
Qed.

Lemma value_of_after_del (self : God) (k k' : string) :
  wf self →
  value_of (after_del self k) k' =
    if decide (k = k') then None else value_of self k'.
Proof.
  intros Hwf.
  rewrite (value_of_alter self _ (delete k) k k') by done.
  destruct (shard_ok self k' Hwf) as (hash & Hh & _).
  case_decide as Hr; case_decide as Hk; subst.
  - rewrite Hh. simpl. apply lookup_delete_eq.
  - unfold value_of. rewrite Hh. simpl. by apply lookup_delete_ne.
  - done.
  - done.
Qed.

Lemma wf_after_put (self : God) (o : Operation) (k v : string) :
  wf self → wf (after_put self o k v).
Proof. unfold wf, after_put. simpl. by rewrite length_alter. Qed.

Lemma wf_after_del (self : God) (k : string) :
  wf self → wf (after_del self k).
Proof. unfold wf, after_del. simpl. by rewrite length_alter. Qed.

(** ** The three keyed commands at their arity *)

Lemma get_spec (self : God) (k : string) (r : Response) :
  wf self →
  Perform self (op GET [k]) r = Ok (self, read_response (value_of self k)).
Proof.
  intros Hwf. destruct (shard_ok self k Hwf) as (hash & Hh & Hs).
  unfold Perform, get, okArity, value_of. simpl.
  rewrite Hs, Hh. simpl. unfold GetHC. by destruct (hash !! k).
Qed.

Lemma put_spec (self : God) (k v : string) (r : Response) :
  wf self →
  Perform self (op PUT [k; v]) r
  = Ok (after_put self (op PUT [k; v]) k v, write_response (value_of self k)).
Proof.
  intros Hwf. destruct (shard_ok self k Hwf) as (hash & Hh & Hs).
  unfold Perform, put, okArity, value_of, after_put. simpl.
  assert (shard (if doLog self then send self (op PUT [k; v]) else self) k
          = Ok (route k, hash, HashCode k)) as ->.
  { unfold shard in *. by rewrite hashes_logged. }
  simpl. rewrite hashes_logged, Hh. simpl.
  rewrite (alter_as_insert (<[k := v]>) _ _ hash Hh).
  by destruct (hash !! k).
Qed.

Lemma del_spec (self : God) (k : string) (r : Response) :
  wf self →
  Perform self (op DELETE [k]) r
  = Ok (after_del self k, write_response (value_of self k)).
Proof.
  intros Hwf. destruct (shard_ok self k Hwf) as (hash & Hh & Hs).
  unfold Perform, del, okArity, value_of, after_del. simpl.
  rewrite Hs, Hh. simpl.
  rewrite (alter_as_insert (delete k) _ _ hash Hh).
  by destruct (hash !! k).
Qed.

(** ** Every Operation is served *)

Lemma Operation_cases (o : Operation) :
  (∃ w, spec_arity (Command_ o) = Some w
        ∧ Z.of_nat (length (Parameters o)) ≠ w)
  ∨ (∃ k, o = op GET [k])
  ∨ (∃ k v, o = op PUT [k; v])
  ∨ (∃ k, o = op DELETE [k])
  ∨ o = op KEYS []
  ∨ spec_arity (Command_ o) = None.
Proof.
  destruct o as [c ps]. unfold spec_arity, op. simpl.
  repeat case_decide; subst; [..|by repeat right].
  - destruct ps as [|k [|? ?]]; [left|right; left|left]; eauto;
      eexists; (split; [done|simpl; lia]).
  - destruct ps as [|k [|v [|? ?]]];
      [left|left|right; right; left|left]; eauto;
      eexists; (split; [done|simpl; lia]).
  - destruct ps as [|k [|? ?]];
      [left|right; right; right; left|left]; eauto;
      eexists; (split; [done|simpl; lia]).
  - destruct ps as [|? ?]; [by right; right; right; right; left|left].
    eexists; (split; [done|simpl; lia]).
Qed.

Lemma Perform_bad_arity (self : God) (o : Operation) (r : Response) (w : Z) :
  spec_arity (Command_ o) = Some w →
  Z.of_nat (length (Parameters o)) ≠ w →
  Perform self o r
  = Ok (self,
        {| Result_ := Z.lor BAD ARITY;
           Parts := [Sprint [Str arity_error; Int w;
                             Int (Z.of_nat (length (Parameters o)))]] |}).
Proof.
  unfold spec_arity, Perform. intros Hw Hn.
  repeat case_decide; simplify_eq;
    unfold get, put, del, keys, okArity; by rewrite decide_True.
Qed.

Lemma Perform_keys (self : God) (r : Response) :
  Perform self (op KEYS []) r
  = Ok (self, {| Result_ := OK;
                 Parts := concat (Each_keys <$> hashes self) |}).
Proof. reflexivity. Qed.

Lemma Perform_unknown (self : God) (o : Operation) (r : Response) :
  spec_arity (Command_ o) = None →
  Perform self o r = Ok (self, {| Result_ := UNKNOWN; Parts := [] |}).
Proof.
  unfold spec_arity, Perform. intros Hw. by repeat case_decide.
Qed.

(** An Operation that is not an effective put or delete on [k] is served
    and leaves the value of [k] alone. *)
Lemma Perform_frame (self : God) (o : Operation) (r : Response) (k : string) :
  wf self → mutates k o = false →
  ∃ self' r', Perform self o r = Ok (self', r')
              ∧ wf self' ∧ value_of self' k = value_of self k.
Proof.
  intros Hwf Hk.
  destruct (Operation_cases o)
    as [(w & Hw & Hn)|[[k' ->]|[(k' & v & ->)|[[k' ->]|[->|Hu]]]]].
  - rewrite (Perform_bad_arity _ _ _ _ Hw Hn). eauto.
  - rewrite get_spec by done. eauto.
  - rewrite put_spec by done. do 2 eexists. split; [done|].
    split; [by apply wf_after_put|].
    rewrite value_of_after_put by done. case_decide; [|done].
    subst. unfold mutates in Hk. simpl in Hk.
    by rewrite bool_decide_true in Hk.
  - rewrite del_spec by done. do 2 eexists. split; [done|].
    split; [by apply wf_after_del|].
    rewrite value_of_after_del by done. case_decide; [|done].
    subst. unfold mutates in Hk. simpl in Hk.
    by rewrite bool_decide_true in Hk.
  - rewrite Perform_keys. eauto.
  - rewrite (Perform_unknown _ _ _ Hu). eauto.
Qed.

Lemma PerformAll_step (self s1 s2 : God) (o : Operation) (os : list Operation)
    (r1 : Response) (rs : list Response) :
  Perform self o {| Result_ := 0; Parts := [] |} = Ok (s1, r1) →
  PerformAll s1 os = Ok (s2, rs) →
  PerformAll self (o :: os) = Ok (s2, r1 :: rs).
Proof. intros H1 H2. simpl. rewrite H1. simpl. by rewrite H2. Qed.

Lemma PerformAll_frame (self : God) (os : list Operation) (k : string) :
  wf self → Forall (λ o, mutates k o = false) os →
  ∃ self' rs, PerformAll self os = Ok (self', rs)
              ∧ wf self' ∧ value_of self' k = value_of self k.
Proof.
  intros Hwf Hos. revert self Hwf.
  induction Hos as [|o os Ho _ IH]; intros self Hwf.
  - by exists self, [].
  - destruct (Perform_frame self o {| Result_ := 0; Parts := [] |} k Hwf Ho)
      as (s1 & r1 & HP & Hwf1 & Hv1).
    destruct (IH s1 Hwf1) as (s2 & rs & HA & Hwf2 & Hv2).
    exists s2, (r1 :: rs). split; [by eapply PerformAll_step|].
    split; [done|congruence].
Qed.

Lemma NewGod_empty (dir : string) :
  NewGod ∅ dir
  = Ok (Some {| hashes := replicate (Z.to_nat shards) ∅; dir := dir;
                logChannel := []; doLog := true |}, None).
Proof. reflexivity. Qed.

Lemma Perform_result (self : God) (o : Operation) (r : Response) :
  wf self →
  ∃ self' r', Perform self o r = Ok (self', r')
    ∧ (Result_ r' = Z.lor BAD ARITY ∨ Result_ r' = Z.lor OK MISSING
       ∨ Result_ r' = Z.lor OK EXISTS ∨ Result_ r' = OK
       ∨ Result_ r' = UNKNOWN).
Proof.
  intros Hwf.
  destruct (Operation_cases o)
    as [(w & Hw & Hn)|[[k ->]|[(k & v & ->)|[[k ->]|[->|Hu]]]]].
  - rewrite (Perform_bad_arity _ _ _ _ Hw Hn). eauto.
  - rewrite get_spec by done. do 2 eexists. split; [done|].
    destruct (value_of self k); simpl; auto.
  - rewrite put_spec by done. do 2 eexists. split; [done|].
    destruct (value_of self k); simpl; auto.
  - rewrite del_spec by done. do 2 eexists. split; [done|].
    destruct (value_of self k); simpl; auto.
  - rewrite Perform_keys. do 2 eexists. split; [done|]. simpl. auto 6.
  - rewrite (Perform_unknown _ _ _ Hu). do 2 eexists. split; [done|].
    simpl. auto 6.
Qed.

Lemma append_empty_r (s : string) : s ++ "" = s.
Proof.
  induction s as [|c s IH]; [done|].
  change (String c (s ++ "") = String c s). by f_equal.
Qed.

(** ** The command protocol *)

(** C3. An Operation whose parameter count differs from the arity of its
    command (GET=1, PUT=2, DELETE=1, KEYS=0) is answered with Result exactly
    BAD|ARITY and one part, the diagnostic [fmt.Sprint] builds from the
    arity message and the two counts; the store that comes back is the store
    that went in, so no shard map and no log queue entry has changed. *)
Theorem arity_mismatch_short_circuits
    (self : God) (o : Operation) (r : Response) (w : Z) :
  spec_arity (Command_ o) = Some w →
  Z.of_nat (length (Parameters o)) ≠ w →
  ∃ msg,
    Perform self o r
    = Ok (self, {| Result_ := Z.lor BAD ARITY; Parts := [msg] |})
    ∧ msg = arity_error
              ++ pretty w ++ " "
              ++ pretty (Z.of_nat (length (Parameters o)))
    ∧ Z.lor BAD ARITY = 48.
Proof.
  intros Hw Hn. eexists. split; [by apply Perform_bad_arity|].
  split; [|done]. unfold Sprint, Sprint_from, format_operand, is_Str.
  by rewrite append_empty_r.
Qed.

(** C4. On a store opened on an empty directory the example session runs
    as written: PUT a 1 gives OK|MISSING with an empty-string part, PUT a 2
    gives OK|EXISTS with "1", GET a gives OK|EXISTS with "2", DELETE a gives
    OK|EXISTS with "2", GET a gives OK|MISSING with no parts.  In general a
    put answers with the previous value when the key existed and with an
    empty-string part otherwise. *)
Theorem example_session (d : string) :
  (∃ self self',
     NewGod ∅ d = Ok (Some self, None)
     ∧ PerformAll self
         [op PUT ["a"; "1"]; op PUT ["a"; "2"]; op GET ["a"];
          op DELETE ["a"]; op GET ["a"]]
       = Ok (self',
             [{| Result_ := Z.lor OK MISSING; Parts := [""] |};
              {| Result_ := Z.lor OK EXISTS; Parts := ["1"] |};
              {| Result_ := Z.lor OK EXISTS; Parts := ["2"] |};
              {| Result_ := Z.lor OK EXISTS; Parts := ["2"] |};
              {| Result_ := Z.lor OK MISSING; Parts := [] |}]))
  ∧ (∀ self k v r,
       wf self →
       ∃ self',
         Perform self (op PUT [k; v]) r
         = Ok (self',
               match value_of self k with
               | Some previous =>
                   {| Result_ := Z.lor OK EXISTS; Parts := [previous] |}
               | None => {| Result_ := Z.lor OK MISSING; Parts := [""] |}
               end)).
Proof.
  split.
  - eexists _, _. split; [apply NewGod_empty|].
    set (s0 := mkGod _ _ _ _).
    assert (wf s0) as Hwf0 by apply length_replicate.
    assert (value_of s0 "a" = None) as Hv0.
    { unfold value_of.
      change (hashes s0)
        with (replicate (Z.to_nat shards) (∅ : gmap string string)).
      rewrite lookup_replicate_2; [done|]. apply route_lt. }
    set (s1 := after_put s0 (op PUT ["a"; "1"]) "a" "1").
    set (s2 := after_put s1 (op PUT ["a"; "2"]) "a" "2").
    set (s3 := after_del s2 "a").
    assert (wf s1) as Hwf1 by by apply wf_after_put.
    assert (wf s2) as Hwf2 by by apply wf_after_put.
    assert (wf s3) as Hwf3 by by apply wf_after_del.
    assert (value_of s1 "a" = Some "1") as Hv1.
    { unfold s1. rewrite value_of_after_put by done. by rewrite decide_True. }
    assert (value_of s2 "a" = Some "2") as Hv2.
    { unfold s2. rewrite value_of_after_put by done. by rewrite decide_True. }
    assert (value_of s3 "a" = None) as Hv3.
    { unfold s3. rewrite value_of_after_del by done. by rewrite decide_True. }
    eapply PerformAll_step.
    { rewrite put_spec by done. by rewrite Hv0. }
    eapply PerformAll_step.
    { fold s1. rewrite put_spec by done. by rewrite Hv1. }
    eapply PerformAll_step.
    { fold s2. rewrite get_spec by done. by rewrite Hv2. }
    eapply PerformAll_step.
    { rewrite del_spec by done. by rewrite Hv2. }
    eapply PerformAll_step.
    { fold s3. rewrite get_spec by done. by rewrite Hv3. }
    reflexivity.
  - intros self k v r Hwf. eexists. by rewrite put_spec.
Qed.

(** C5. After a put of [v] under [k], and after any further Operations
    none of which is a put or a delete of [k] at its arity, a get of [k]
    answers OK|EXISTS (so EXISTS is set) with the single part [v]. *)
Theorem get_after_put
    (self : God) (k v : string) (r : Response) (os : list Operation) :
  wf self →
  Forall (λ o, mutates k o = false) os →
  ∃ s1 r1 s2 rs,
    Perform self (op PUT [k; v]) r = Ok (s1, r1)
    ∧ PerformAll s1 os = Ok (s2, rs)
    ∧ (∀ r', Perform s2 (op GET [k]) r'
             = Ok (s2, {| Result_ := Z.lor OK EXISTS; Parts := [v] |}))
    ∧ Z.land (Z.lor OK EXISTS) EXISTS = EXISTS.
Proof.
  intros Hwf Hos.
  pose proof (wf_after_put self (op PUT [k; v]) k v Hwf) as Hwf1.
  destruct (PerformAll_frame _ os k Hwf1 Hos) as (s2 & rs & HA & Hwf2 & Hv2).
  eexists _, _, s2, rs. split; [by apply put_spec|]. split; [done|].
  split; [|done]. intros r'. rewrite get_spec by done. rewrite Hv2.
  rewrite value_of_after_put by done. by rewrite decide_True.
Qed.

(** C6. The shard of a key is the one at index hashcode & (shards-1): the
    index is in range, it depends on the hash code of the key alone and not
    on the store it is computed in (so two stores, or one store before and
    after a restart, route a key alike), and get, put and delete read or
    change that shard and no other. *)
Theorem shard_routing (self : God) (k : string) :
  wf self →
  let i := Z.to_nat (Z.land (HashCode k) (shards - 1)) in
  (i < Z.to_nat shards)%nat
  ∧ (∃ hash, hashes self !! i = Some hash
             ∧ shard self k = Ok (i, hash, HashCode k))
  ∧ (∀ other j hash hc, shard other k = Ok (j, hash, hc) → j = i)
  ∧ (∀ k', HashCode k' = HashCode k →
           Z.to_nat (Z.land (HashCode k') (shards - 1)) = i)
  ∧ (∀ r, Perform self (op GET [k]) r
          = Ok (self, read_response (hashes self !! i ≫= λ hash, hash !! k)))
  ∧ (∀ v r, ∃ self' r',
        Perform self (op PUT [k; v]) r = Ok (self', r')
        ∧ hashes self' = alter (<[k := v]>) i (hashes self))
  ∧ (∀ r, ∃ self' r',
        Perform self (op DELETE [k]) r = Ok (self', r')
        ∧ hashes self' = alter (delete k) i (hashes self)).
Proof.
  intros Hwf i. fold (route k) in i. subst i.
  split; [apply route_lt|]. split; [by apply shard_ok|]. split.
  { intros other j hash hc Hs. unfold shard, index in Hs. cbv zeta in Hs.
    fold (route k) in Hs.
    destruct (hashes other !! route k); by simplify_eq/=. }
  split; [by intros k' ->|]. split; [intros r; by apply get_spec|]. split.
  - intros v r. eexists _, _. split; [by apply put_spec|]. done.
  - intros r. eexists _, _. split; [by apply del_spec|]. done.
Qed.

(** C10. For a key the store does not hold, a get answers OK|MISSING with
    no parts at all, while a put and a delete answer OK|MISSING with one
    part, the empty string. *)
Theorem missing_key_parts (self : God) (k : string) :
  wf self →
  value_of self k = None →
  (∀ r, Perform self (op GET [k]) r
        = Ok (self, {| Result_ := Z.lor OK MISSING; Parts := [] |}))
  ∧ (∀ v r, ∃ self',
        Perform self (op PUT [k; v]) r
        = Ok (self', {| Result_ := Z.lor OK MISSING; Parts := [""] |}))
  ∧ (∀ r, ∃ self',
        Perform self (op DELETE [k]) r
        = Ok (self', {| Result_ := Z.lor OK MISSING; Parts := [""] |})).
Proof.
  intros Hwf Hv. split; [|split].
  - intros r. rewrite get_spec by done. by rewrite Hv.
  - intros v r. eexists. rewrite put_spec by done. by rewrite Hv.
  - intros r. eexists. rewrite del_spec by done. by rewrite Hv.
Qed.

(** C8, amended. Every Operation is answered, and the Result is one of
    five values: BAD|ARITY, OK|MISSING and OK|EXISTS, which carry two flags
    each, or OK (from KEYS) and UNKNOWN (an unrecognised command), which
    carry one. *)
Theorem result_flag_combinations (self : God) (o : Operation) (r : Response) :
  wf self →
  ∃ self' r',
    Perform self o r = Ok (self', r')
    ∧ ((Result_ r' = Z.lor BAD ARITY ∨ Result_ r' = Z.lor OK MISSING
        ∨ Result_ r' = Z.lor OK EXISTS)
       ∧ length (Result_flags (Result_ r')) = 2%nat
       ∨ (Result_ r' = OK ∨ Result_ r' = UNKNOWN)
         ∧ length (Result_flags (Result_ r')) = 1%nat).
Proof.
  intros Hwf.
  destruct (Perform_result self o r Hwf) as (self' & r' & HP & Hr).
  exists self', r'. split; [done|].
  destruct Hr as [Hr|[Hr|[Hr|[Hr|Hr]]]]; rewrite Hr;
    [left|left|left|right|right]; (split; [auto|reflexivity]).
Qed.

(** ** Write-ahead logging *)

(** C2, as the code has it. With logging enabled an effective delete is
    served and sends nothing on the log channel, whereas an effective put on
    the same store sends its Operation. *)
Theorem del_sends_nothing (self : God) (k : string) (r : Response) :
  wf self →
  doLog self = true →
  (∃ self' r',
     Perform self (op DELETE [k]) r = Ok (self', r')
     ∧ logChannel self' = logChannel self)
  ∧ (∀ v, ∃ self' r',
       Perform self (op PUT [k; v]) r = Ok (self', r')
       ∧ logChannel self' = (logChannel self ++ [op PUT [k; v]])%list).
Proof.
  intros Hwf Hlog. split.
  - eexists _, _. split; [by apply del_spec|done].
  - intros v. eexists _, _. split; [by apply put_spec|].
    unfold after_put. by rewrite Hlog.
Qed.

(** ** Replay of what was logged *)

Lemma Perform_ignores_response (self : God) (o : Operation) (r1 r2 : Response) :
  Perform self o r1 = Perform self o r2.
Proof.
  unfold Perform, get, put, del, keys, okArity.
  repeat case_decide; reflexivity.
Qed.

Lemma load_loop_ignores_response
    (self : God) (ops : list Operation) (r1 r2 : Response) :
  load_loop self ops r1 = load_loop self ops r2.
Proof.
  destruct ops as [|o ops]; [done|]. simpl.
  by rewrite (Perform_ignores_response self o r1 r2).
Qed.

(** Cutting a sequence of records in two (two files read one after the
    other) replays like the whole. *)
Lemma load_loop_app (self : God) (a b : list Operation) (r : Response) :
  load_loop self (a ++ b) r
  = load_loop self a r ≫= λ self', load_loop self' b r.
Proof.
  revert self r. induction a as [|o a IH]; intros self r; [done|]. simpl.
  destruct (Perform self o r) as [[s' r']| |]; [|done|done]. simpl.
  rewrite IH. destruct (load_loop s' a r') as [s''| |]; [|done|done]. simpl.
  apply load_loop_ignores_response.
Qed.

Lemma doLog_after_put (self : God) (o : Operation) (k v : string) :
  doLog (after_put self o k v) = doLog self.
Proof. unfold after_put. by destruct (doLog self) eqn:E. Qed.

Lemma logChannel_after_put (self : God) (o : Operation) (k v : string) :
  logChannel (after_put self o k v)
  = if doLog self then (logChannel self ++ [o])%list else logChannel self.
Proof. unfold after_put. by destruct (doLog self) eqn:E. Qed.

(** An Operation that is not a delete at its arity either leaves the store
    as it is and is not sent to the log, or is a put at its arity. *)
Lemma Perform_without_delete (self : God) (o : Operation) (r : Response) :
  wf self → deletes o = false →
  (sent o = false ∧ ∃ r', Perform self o r = Ok (self, r'))
  ∨ (∃ k v r', o = op PUT [k; v] ∧ sent o = true
               ∧ Perform self o r = Ok (after_put self o k v, r')).
Proof.
  intros Hwf Hd.
  destruct (Operation_cases o)
    as [(w & Hw & Hn)|[[k ->]|[(k & v & ->)|[[k ->]|[->|Hu]]]]].
  - left. split; [|rewrite (Perform_bad_arity _ _ _ _ Hw Hn); eauto].
    unfold sent. apply bool_decide_eq_false. intros [Hc Hl].
    rewrite Hc in Hw. apply Hn. injection Hw as <-. lia.
  - left. split; [done|]. rewrite get_spec by done. eauto.
  - right. exists k, v. eexists. split; [done|]. split; [done|].
    by apply put_spec.
  - done.
  - left. split; [done|]. rewrite Perform_keys. eauto.
  - left. split; [|rewrite (Perform_unknown _ _ _ Hu); eauto].
    unfold sent. apply bool_decide_eq_false. intros [Hc Hl].
    by rewrite Hc in Hu.
Qed.

(** A live store with logging on and a replaying store with logging off
    that hold the same mapping: the live store serves a session without
    deletes, the replaying store loads what the session sent to the log,
    and they hold the same mapping again. *)
Lemma live_and_replay (os : list Operation) :
  ∀ (s t : God) (r : Response),
    wf s → wf t → doLog s = true →
    (∀ k, value_of s k = value_of t k) →
    Forall (λ o, deletes o = false) os →
    ∃ s' rs t',
      PerformAll s os = Ok (s', rs)
      ∧ load_loop t (List.filter sent os) r = Ok t'
      ∧ wf s' ∧ wf t' ∧ doLog t' = doLog t
      ∧ logChannel s' = (logChannel s ++ List.filter sent os)%list
      ∧ ∀ k, value_of s' k = value_of t' k.
Proof.
  induction os as [|o os IH]; intros s t r Hs Ht Hlog Hsame Hnd.
  { exists s, [], t. simpl. by rewrite app_nil_r. }
  apply Forall_cons in Hnd as [Ho Hnd].
  destruct (Perform_without_delete s o {| Result_ := 0; Parts := [] |} Hs Ho)
    as [[Hsent [r1 HP]]|(k & v & r1 & -> & Hsent & HP)].
  - destruct (IH s t r Hs Ht Hlog Hsame Hnd)
      as (s' & rs & t' & HA & HL & ? & ? & ? & HC & ?).
    exists s', (r1 :: rs), t'. cbn [List.filter]. rewrite Hsent.
    split; [by eapply PerformAll_step|done].
  - set (o := op PUT [k; v]) in *.
    assert (∀ k', value_of (after_put s o k v) k'
                  = value_of (after_put t o k v) k') as Hsame1.
    { intros k'. rewrite !value_of_after_put by done.
      case_decide; [done|apply Hsame]. }
    destruct (IH (after_put s o k v) (after_put t o k v)
                 (write_response (value_of t k)))
      as (s' & rs & t' & HA & HL & ? & ? & Hd & HC & ?);
      [by apply wf_after_put|by apply wf_after_put
      |by rewrite doLog_after_put|done|done|].
    exists s', (r1 :: rs), t'. cbn [List.filter]. rewrite Hsent.
    split; [by eapply PerformAll_step|].
    split.
    { cbn [load_loop]. unfold o at 1. rewrite (put_spec t k v r Ht).
      exact HL. }
    rewrite doLog_after_put in Hd.
    rewrite logChannel_after_put, Hlog, <- app_assoc in HC. done.
Qed.

(** ** The storage directory with one log file *)

Lemma append_cons (c : ascii) (s t : string) :
  String c s ++ t = String c (s ++ t).
Proof. reflexivity. Qed.

Lemma length_append (s t : string) :
  String.length (s ++ t) = (String.length s + String.length t)%nat.
Proof.
  induction s as [|c s IH]; [done|].
  rewrite append_cons. simpl. by rewrite IH.
Qed.

Lemma substring_append (s t : string) (m : nat) :
  substring (String.length s) m (s ++ t) = substring 0 m t.
Proof.
  induction s as [|c s IH]; [done|]. rewrite append_cons. exact IH.
Qed.

Lemma match_log_suffix (s : string) : match_log (s ++ ".log") = true.
Proof.
  unfold match_log. rewrite length_append.
  replace (String.length s + String.length ".log" - 4)%nat
    with (String.length s) by (simpl; lia).
  rewrite substring_append.
  apply andb_true_intro. split; [|done].
  apply Nat.leb_le. simpl. lia.
Qed.

Lemma loadAll_one_log (name : string) (file : File) (self : God) :
  match_log name = true →
  loadAll {[name := file]} self
  = load_loop self (records file) {| Result_ := 0; Parts := [] |}
      ≫= λ self', Ok (self', None).
Proof.
  intros Hm.
  assert (name ≠ snapshot) as Hne by (intros ->; discriminate Hm).
  unfold loadAll, load.
  rewrite lookup_singleton_ne by done. simpl.
  rewrite dom_singleton_L, elements_singleton. simpl.
  rewrite Hm. unfold load. rewrite lookup_singleton_eq.
  by destruct (load_loop self (records file) _).
Qed.

(** ** Segmentation

    Loading a directory is replaying its history: how the records are cut
    into a snapshot and log files does not matter beyond their order. *)

Lemma insert_sorted_elem (x y : string) (l : list string) :
  x ∈ insert_sorted y l → x = y ∨ x ∈ l.
Proof.
  induction l as [|z l IH]; simpl.
  - intros ?%list_elem_of_singleton. by left.
  - destruct (String.leb y z).
    + intros [->|?]%elem_of_cons; [by left|by right].
    + intros [->|Hx]%elem_of_cons; [right; by left|].
      destruct (IH Hx) as [->|?]; [by left|right; by right].
Qed.

Lemma sort_strings_elem (x : string) (l : list string) :
  x ∈ sort_strings l → x ∈ l.
Proof.
  induction l as [|y l IH]; simpl; [done|].
  intros [->|?]%insert_sorted_elem; [by left|right; by apply IH].
Qed.

Lemma loadChildren_replays
    (fs : gmap string File) (children : list string) (self : God) :
  Forall (λ child, is_Some (fs !! child)) children →
  loadChildren fs children self
  = load_loop self
      (concat (file_records fs <$> List.filter match_log children))
      {| Result_ := 0; Parts := [] |}
    ≫= λ self', Ok (self', None).
Proof.
  intros Hin. revert self.
  induction Hin as [|child children [file Hf] _ IH]; intros self.
  { reflexivity. }
  cbn [loadChildren List.filter]. destruct (match_log child); [|apply IH].
  cbn [fmap list_fmap concat]. rewrite load_loop_app.
  assert (file_records fs child = records file) as ->
    by (unfold file_records; by rewrite Hf).
  unfold load. rewrite Hf.
  destruct (load_loop self (records file) _) as [s'| |]; [|done|done].
  apply IH.
Qed.

Lemma loadAll_replays (fs : gmap string File) (self : God) :
  loadAll fs self
  = load_loop self (history fs) {| Result_ := 0; Parts := [] |}
    ≫= λ self', Ok (self', None).
Proof.
  assert (Forall (λ child, is_Some (fs !! child))
                 (sort_strings (elements (dom fs)))) as Hin.
  { apply Forall_forall. intros child Hc%sort_strings_elem.
    by apply elem_of_dom, elem_of_elements. }
  unfold loadAll, history, load, file_records. rewrite load_loop_app.
  destruct (fs !! snapshot) as [file|]; simpl.
  - destruct (load_loop self (records file) _) as [s'| |]; [|done|done].
    by apply loadChildren_replays.
  - by apply loadChildren_replays.
Qed.

(** X21. Two directories with the same history (the records of the
    snapshot, then those of the log files in ascending order of name) open
    as the same store, however the records are cut into files. *)
Lemma NewGod_history (fs1 fs2 : gmap string File) (d : string) :
  history fs1 = history fs2 → NewGod fs1 d = NewGod fs2 d.
Proof. intros Hh. unfold NewGod. by rewrite !loadAll_replays, Hh. Qed.

(** X20. Replay rebuilds the mapping of every session in which no delete
    at its arity occurs: gets, malformed and unknown Operations leave the
    mapping alone, and every put that changed it is in the log. *)
Lemma replay_without_delete (now : Z) (os : list Operation) :
  Forall (λ o, deletes o = false) os → replay_rebuilds now os.
Proof.
  intros Hnd live live' rs Hnew Hrun.
  pose (s0 := {| hashes := replicate (Z.to_nat shards) ∅; dir := "data";
                 logChannel := []; doLog := true |}).
  pose (t0 := {| hashes := replicate (Z.to_nat shards) ∅; dir := "data";
                 logChannel := []; doLog := false |}).
  assert (live = s0) as ->.
  { rewrite NewGod_empty in Hnew. by injection Hnew as <-. }
  assert (wf s0) as Hs0 by exact (length_replicate _ _).
  assert (wf t0) as Ht0 by exact (length_replicate _ _).
  destruct (live_and_replay os s0 t0 {| Result_ := 0; Parts := [] |})
    as (s' & rs' & t' & HA & HL & Hs' & Ht' & Hd & HC & Hsame);
    [done..|].
  rewrite Hrun in HA. injection HA as <- <-.
  exists (set_doLog t' true). split; [|done].
  unfold NewGod, log.
  change (Sprint [Int now; Str ".log"]) with (pretty now ++ ".log").
  rewrite insert_empty, loadAll_one_log by apply match_log_suffix.
  cbn [records]. rewrite HC. cbn [logChannel s0 app]. fold t0.
  by rewrite HL.
Qed.

End StoreFacts.

(** ** Runs on the concrete hash *)

Lemma wf_fresh : wf fresh.
Proof. reflexivity. Qed.

Lemma arity_mismatch_short_circuits_witness :
  ∃ msg,
    Perform fresh (op PUT ["a"]) r0
    = Ok (fresh, {| Result_ := Z.lor BAD ARITY; Parts := [msg] |})
    ∧ msg = arity_error ++ pretty 2 ++ " " ++ pretty (Z.of_nat 1)
    ∧ Z.lor BAD ARITY = 48.
Proof.
  apply (arity_mismatch_short_circuits fresh (op PUT ["a"]) r0 2).
  - reflexivity.
  - simpl. lia.
Defined.

Lemma example_session_witness :
  ∃ self',
    Perform fresh (op PUT ["k"; "v"]) r0
    = Ok (self', {| Result_ := Z.lor OK MISSING; Parts := [""] |}).
Proof.
  destruct (example_session "data") as [_ Hput].
  apply (Hput fresh "k" "v" r0). reflexivity.
Defined.

Lemma get_after_put_witness :
  ∃ s1 r1 s2 rs,
    Perform fresh (op PUT ["a"; "1"]) r0 = Ok (s1, r1)
    ∧ PerformAll s1 [op GET ["a"]; op PUT ["b"; "2"]; op DELETE ["c"];
                     op PUT ["a"]; op KEYS []]
      = Ok (s2, rs)
    ∧ (∀ r', Perform s2 (op GET ["a"]) r'
             = Ok (s2, {| Result_ := Z.lor OK EXISTS; Parts := ["1"] |}))
    ∧ Z.land (Z.lor OK EXISTS) EXISTS = EXISTS.
Proof.
  apply (get_after_put fresh "a" "1" r0).
  - exact wf_fresh.
  - repeat constructor.
Defined.

Lemma shard_routing_witness :
  (Z.to_nat (Z.land (HashCode "a") (shards - 1)) < Z.to_nat shards)%nat.
Proof.
  destruct (shard_routing fresh "a") as [Hlt _].
  - reflexivity.
  - exact Hlt.
Defined.

Lemma missing_key_parts_witness :
  Perform fresh (op GET ["a"]) r0
  = Ok (fresh, {| Result_ := Z.lor OK MISSING; Parts := [] |})
  ∧ (∃ self',
       Perform fresh (op PUT ["a"; "1"]) r0
       = Ok (self', {| Result_ := Z.lor OK MISSING; Parts := [""] |}))
  ∧ (∃ self',
       Perform fresh (op DELETE ["a"]) r0
       = Ok (self', {| Result_ := Z.lor OK MISSING; Parts := [""] |})).
Proof.
  destruct (missing_key_parts fresh "a") as (Hget & Hput & Hdel).
  - exact wf_fresh.
  - vm_compute. reflexivity.
  - split; [apply Hget|]. split; [apply Hput|apply Hdel].
Defined.

Lemma result_flag_combinations_witness :
  ∃ self' r',
    Perform fresh (op GET ["a"]) r0 = Ok (self', r')
    ∧ ((Result_ r' = Z.lor BAD ARITY ∨ Result_ r' = Z.lor OK MISSING
        ∨ Result_ r' = Z.lor OK EXISTS)
       ∧ length (Result_flags (Result_ r')) = 2%nat
       ∨ (Result_ r' = OK ∨ Result_ r' = UNKNOWN)
         ∧ length (Result_flags (Result_ r')) = 1%nat).
Proof.
  apply (result_flag_combinations fresh (op GET ["a"]) r0). reflexivity.
Defined.

(** C8, as stated, fails: a get of an absent key answers OK|MISSING, which
    carries two flags and is not BAD|ARITY. *)
Lemma OK_MISSING_combines : ¬ only_BAD_ARITY_combines.
Proof.
  intros Hc.
  specialize (Hc fresh (op GET ["a"]) r0 fresh
                 {| Result_ := Z.lor OK MISSING; Parts := [] |}).
  assert (Z.lor OK MISSING = Z.lor BAD ARITY) as Habs; [|discriminate Habs].
  apply Hc.
  - reflexivity.
  - vm_compute. reflexivity.
  - vm_compute. lia.
Qed.

Lemma del_sends_nothing_witness :
  (∃ self' r',
     Perform fresh (op DELETE ["a"]) r0 = Ok (self', r')
     ∧ logChannel self' = logChannel fresh)
  ∧ (∀ v, ∃ self' r',
       Perform fresh (op PUT ["a"; v]) r0 = Ok (self', r')
       ∧ logChannel self' = (logChannel fresh ++ [op PUT ["a"; v]])%list).
Proof.
  apply (del_sends_nothing fresh "a" r0); reflexivity.
Defined.

(** C1, as the code has it. A store is opened on an empty directory and
    serves PUT a 1 then DELETE a; the key is gone from the live store, but
    only the put has reached the log, so the store opened on the written
    log holds "1" for the key. *)
Theorem replay_loses_delete :
  let session := [op PUT ["a"; "1"]; op DELETE ["a"]] in
  let live' := after_del (after_put fresh (op PUT ["a"; "1"]) "a" "1") "a" in
  let replayed :=
    set_doLog
      (after_put (set_doLog fresh false) (op PUT ["a"; "1"]) "a" "1") true in
  NewGod ∅ "data" = Ok (Some fresh, None)
  ∧ PerformAll fresh session
    = Ok (live', [{| Result_ := Z.lor OK MISSING; Parts := [""] |};
                  {| Result_ := Z.lor OK EXISTS; Parts := ["1"] |}])
  ∧ logChannel live' = [op PUT ["a"; "1"]]
  ∧ NewGod (log 1 live' ∅) "data" = Ok (Some replayed, None)
  ∧ value_of live' "a" = None
  ∧ value_of replayed "a" = Some "1"
  ∧ ¬ replay_rebuilds 1 session.
Proof.
  intros session live' replayed.
  assert (NewGod ∅ "data" = Ok (Some fresh, None)) as Hnew by reflexivity.
  assert (PerformAll fresh session
          = Ok (live', [{| Result_ := Z.lor OK MISSING; Parts := [""] |};
                        {| Result_ := Z.lor OK EXISTS; Parts := ["1"] |}]))
    as Hlive by (vm_compute; reflexivity).
  assert (NewGod (log 1 live' ∅) "data" = Ok (Some replayed, None))
    as Hreplay by (vm_compute; reflexivity).
  assert (value_of live' "a" = None) as Hv by (vm_compute; reflexivity).
  assert (value_of replayed "a" = Some "1") as Hv'
    by (vm_compute; reflexivity).
  split; [exact Hnew|]. split; [exact Hlive|].
  split; [vm_compute; reflexivity|].
  split; [exact Hreplay|]. split; [exact Hv|]. split; [exact Hv'|].
  intros Hc. destruct (Hc _ _ _ Hnew Hlive) as (g & Hg & Hsame).
  rewrite Hreplay in Hg. injection Hg as <-.
  specialize (Hsame "a"). rewrite Hv, Hv' in Hsame. discriminate Hsame.
Qed.

(** * Properties of the ring node *)

Import Discord.

Section NodeFacts.
Context {Ring Net : Type} `{Common Ring} `{Transport Net}.

(** One round of [GetSuccessor] whose remote call fails: the node passed
    to [RemoveNode] is the successor of the key. *)
Lemma GetSuccessor_failed_call
    (fuel : nat) (net net' : Net) (self : Node Ring) (key : list Byte.byte)
    (p : Remote) (m : option Remote) (s : Remote) :
  Remotes (ring self) key = (p, m, s) →
  Addr (default p m) ≠ GetAddr self →
  Call_GetSuccessor net (default p m) key = (net', None) →
  GetSuccessor (S fuel) net self key
  = RemoveNode self s ≫= λ self', GetSuccessor fuel net' self' key.
Proof.
  intros HR Hp HC. simpl. rewrite HR.
  replace (match m with Some m0 => m0 | None => p end) with (default p m)
    by by destruct m.
  rewrite decide_True by done. by rewrite HC.
Qed.

(** One round of [pingPredecessor] whose remote call fails: the node passed
    to [RemoveNode] is the node that was called. *)
Lemma pingPredecessor_failed_call
    (fuel : nat) (net net' : Net) (self : Node Ring) :
  Call_Ping net (GetPredecessor self) = (net', false) →
  pingPredecessor (S fuel) net self
  = RemoveNode self (GetPredecessor self)
      ≫= λ self', pingPredecessor fuel net' self'.
Proof. intros HC. simpl. by rewrite HC. Qed.

(** C9. [RemoveNode] panics on a Remote that carries the node's own
    address, and on any other Remote it returns the node with that Remote
    removed from its ring. *)
Theorem RemoveNode_guard (self : Node Ring) (remote : Remote) :
  (Addr remote = GetAddr self →
   ∃ msg, RemoveNode self remote = Panic msg
          ∧ ∀ self', RemoveNode self remote ≠ Ok self')
  ∧ (Addr remote ≠ GetAddr self →
     RemoveNode self remote
     = Ok (set_ring self (Remove remote (ring self)))).
Proof.
  unfold RemoveNode. split; intros Ha.
  - rewrite decide_True by done. eexists. split; [done|]. by intros self'.
  - by rewrite decide_False.
Qed.

End NodeFacts.

Lemma RemoveNode_guard_witness :
  (∃ msg, RemoveNode nodeA remoteA = Panic msg
          ∧ ∀ self', RemoveNode nodeA remoteA ≠ Ok self')
  ∧ RemoveNode nodeA remoteB = Ok (set_ring nodeA [remoteA; remoteC]).
Proof.
  destruct (RemoveNode_guard nodeA remoteA) as [Hself _].
  destruct (RemoveNode_guard nodeA remoteB) as [_ Hother].
  split.
  - apply Hself. reflexivity.
  - apply Hother. discriminate.
Defined.

(** C7, as the code has it. Node A holds the view {A, B, C}; the key lies
    between B and C, so its predecessor is B and its successor is C.  B does
    not answer.  The round removes C, the successor, and keeps B, the node
    that was called; the retry calls B again, now with A itself as the
    successor, and panics in [RemoveNode]. *)
Theorem GetSuccessor_drops_successor :
  let key := [Byte.x50] in
  Remotes (ring nodeA) key = (remoteB, None, remoteC)
  ∧ Call_GetSuccessor netB_down remoteB key = (netB_down, None)
  ∧ (∀ fuel,
       GetSuccessor (S fuel) netB_down nodeA key
       = GetSuccessor fuel netB_down
           (set_ring nodeA [remoteA; remoteB]) key)
  ∧ GetSuccessor 2 netB_down nodeA key
    = Panic "<10@a:9191> is trying to remove itself from the routing!".
Proof.
  intros key.
  assert (Remotes (ring nodeA) key = (remoteB, None, remoteC)) as HR
    by reflexivity.
  assert (Call_GetSuccessor netB_down remoteB key = (netB_down, None)) as HC
    by reflexivity.
  split; [exact HR|]. split; [exact HC|]. split; [|reflexivity].
  intros fuel.
  rewrite (GetSuccessor_failed_call fuel netB_down netB_down nodeA key
             remoteB None remoteC HR); [reflexivity|discriminate|exact HC].
Qed.

(** * Further properties of the store *)

Section StoreLaws.
Context `{Hashable string}.

Lemma value_of_hashes (s t : God) (k : string) :
  hashes s = hashes t → value_of s k = value_of t k.
Proof. unfold value_of. by intros ->. Qed.

Lemma wf_hashes (s t : God) : hashes s = hashes t → wf s → wf t.
Proof. unfold wf. by intros ->. Qed.

(** Every Operation is served, whatever its command and parameters, and
    the shard slice keeps its length, the directory its name, the logging
    switch its position. *)
Lemma Perform_keeps (self : God) (o : Operation) (r : Response) :
  wf self →
  ∃ self' r',
    Perform self o r = Ok (self', r')
    ∧ wf self' ∧ dir self' = dir self ∧ doLog self' = doLog self.
Proof.
  intros Hwf.
  destruct (Operation_cases o)
    as [(w & Hw & Hn)|[[k ->]|[(k & v & ->)|[[k ->]|[->|Hu]]]]].
  - rewrite (Perform_bad_arity _ _ _ _ Hw Hn). eauto 10.
  - rewrite get_spec by done. eauto 10.
  - rewrite put_spec by done. eexists _, _. split; [done|].
    split; [by apply wf_after_put|].
    split; [|apply doLog_after_put].
    unfold after_put. by destruct (doLog self).
  - rewrite del_spec by done. eexists _, _. split; [done|].
    split; [by apply wf_after_del|done].
  - rewrite Perform_keys. eauto 10.
  - rewrite (Perform_unknown _ _ _ Hu). eauto 10.
Qed.

(** X1. A store with its 512 shards answers every Operation, whatever the
    command number and the parameters: there is no panic, and the store
    that comes back has its 512 shards, its directory and its logging switch
    unchanged. *)
Theorem Perform_never_panics (self : God) (o : Operation) (r : Response) :
  wf self →
  ∃ self' r',
    Perform self o r = Ok (self', r')
    ∧ length (hashes self') = 512%nat
    ∧ dir self' = dir self ∧ doLog self' = doLog self.
Proof.
  intros Hwf.
  destruct (Perform_keeps self o r Hwf) as (self' & r' & HP & Hwf' & ? & ?).
  by exists self', r'.
Qed.

(** X2. Only a put with two parameters and a delete with one parameter
    change the store: every other Operation (a get, KEYS, an unknown
    command, a put or a delete with the wrong number of parameters) returns
    the very store it was given, shards and log channel included. *)
Theorem only_put_and_delete_write
    (self : God) (o : Operation) (r : Response) :
  wf self → sent o = false → deletes o = false →
  ∃ r', Perform self o r = Ok (self, r').
Proof.
  intros Hwf Hs Hd.
  destruct (Perform_without_delete self o r Hwf Hd)
    as [[_ HP]|(k & v & r' & -> & Hs' & _)]; [done|].
  by rewrite Hs' in Hs.
Qed.

(** X3. A put of [v] under [k] answers with what the store held for [k],
    and afterwards the store holds [v] for [k] and, for every other key,
    what it held before, also for the keys that share the shard of [k]. *)
Theorem put_changes_one_key (self : God) (k v : string) (r : Response) :
  wf self →
  ∃ self',
    Perform self (op PUT [k; v]) r
    = Ok (self', write_response (value_of self k))
    ∧ wf self'
    ∧ value_of self' k = Some v
    ∧ ∀ k', k' ≠ k → value_of self' k' = value_of self k'.
Proof.
  intros Hwf. eexists. split; [by apply put_spec|].
  split; [by apply wf_after_put|]. split.
  - rewrite value_of_after_put by done. by rewrite decide_True.
  - intros k' Hk. rewrite value_of_after_put by done.
    by rewrite decide_False.
Qed.

(** X4. A delete of [k] answers with what the store held for [k], and
    afterwards the store holds nothing for [k] and, for every other key,
    what it held before. *)
Theorem del_changes_one_key (self : God) (k : string) (r : Response) :
  wf self →
  ∃ self',
    Perform self (op DELETE [k]) r
    = Ok (self', write_response (value_of self k))
    ∧ wf self'
    ∧ value_of self' k = None
    ∧ ∀ k', k' ≠ k → value_of self' k' = value_of self k'.
Proof.
  intros Hwf. eexists. split; [by apply del_spec|].
  split; [by apply wf_after_del|]. split.
  - rewrite value_of_after_del by done. by rewrite decide_True.
  - intros k' Hk. rewrite value_of_after_del by done.
    by rewrite decide_False.
Qed.

Lemma after_del_twice (self : God) (k : string) :
  after_del (after_del self k) k = after_del self k.
Proof.
  unfold after_del, set_hashes. simpl. f_equal.
  rewrite list_alter_alter_eq. apply list_alter_ext; [|done].
  intros hash _. simpl. apply delete_delete_eq.
Qed.

(** X5. Delete is idempotent: a second delete of the same key answers
    OK|MISSING with one empty-string part and returns the store the first
    delete left. *)
Theorem del_idempotent (self : God) (k : string) (r r' : Response) :
  wf self →
  ∃ s1 r1,
    Perform self (op DELETE [k]) r = Ok (s1, r1)
    ∧ Perform s1 (op DELETE [k]) r'
      = Ok (s1, {| Result_ := Z.lor OK MISSING; Parts := [""] |}).
Proof.
  intros Hwf. eexists _, _. split; [by apply del_spec|].
  rewrite del_spec by by apply wf_after_del.
  rewrite after_del_twice, value_of_after_del by done.
  by rewrite decide_True.
Qed.

(** ** What reaches the log *)

Lemma Perform_log (self : God) (o : Operation) (r : Response) :
  wf self →
  ∃ self' r',
    Perform self o r = Ok (self', r')
    ∧ wf self' ∧ doLog self' = doLog self
    ∧ logChannel self'
      = (logChannel self ++ if doLog self && sent o then [o] else [])%list.
Proof.
  intros Hwf.
  destruct (Operation_cases o)
    as [(w & Hw & Hn)|[[k ->]|[(k & v & ->)|[[k ->]|[->|Hu]]]]].
  - rewrite (Perform_bad_arity _ _ _ _ Hw Hn). eexists _, _.
    do 3 (split; [done|]).
    assert (sent o = false) as ->.
    { unfold sent. apply bool_decide_eq_false. intros [Hc Hl].
      rewrite Hc in Hw. apply Hn. injection Hw as <-. lia. }
    by rewrite andb_false_r, app_nil_r.
  - rewrite get_spec by done. eexists _, _. do 3 (split; [done|]).
    by rewrite andb_false_r, app_nil_r.
  - rewrite put_spec by done. eexists _, _. split; [done|].
    split; [by apply wf_after_put|]. split; [apply doLog_after_put|].
    rewrite logChannel_after_put.
    destruct (doLog self); [done|by rewrite app_nil_r].
  - rewrite del_spec by done. eexists _, _. split; [done|].
    split; [by apply wf_after_del|]. split; [done|].
    by rewrite andb_false_r, app_nil_r.
  - rewrite Perform_keys. eexists _, _. do 3 (split; [done|]).
    by rewrite andb_false_r, app_nil_r.
  - rewrite (Perform_unknown _ _ _ Hu). eexists _, _.
    do 3 (split; [done|]).
    assert (sent o = false) as ->.
    { unfold sent. apply bool_decide_eq_false. intros [Hc Hl].
      by rewrite Hc in Hu. }
    by rewrite andb_false_r, app_nil_r.
Qed.

(** X6. Over any session, the log channel of a store with logging enabled
    receives exactly the puts with two parameters, in the order they were
    issued, and one Response comes back per Operation; with logging
    disabled the channel receives nothing. *)
Theorem log_receives_the_puts (self : God) (os : list Operation) :
  wf self →
  ∃ self' rs,
    PerformAll self os = Ok (self', rs)
    ∧ length rs = length os
    ∧ logChannel self'
      = (logChannel self
         ++ if doLog self then List.filter sent os else [])%list.
Proof.
  revert self. induction os as [|o os IH]; intros self Hwf.
  { exists self, []. simpl. by destruct (doLog self); rewrite app_nil_r. }
  destruct (Perform_log self o {| Result_ := 0; Parts := [] |} Hwf)
    as (s1 & r1 & HP & Hwf1 & Hd1 & HC1).
  destruct (IH s1 Hwf1) as (s2 & rs & HA & Hlen & HC2).
  exists s2, (r1 :: rs). split; [by eapply PerformAll_step|].
  split; [simpl; by rewrite Hlen|].
  rewrite HC2, HC1, Hd1. cbn [List.filter].
  destruct (doLog self), (sent o); simpl;
    by rewrite <- ?app_assoc, ?app_nil_r.
Qed.

(** ** Logging does not show in the answers *)

Lemma Perform_same_shards
    (s t : God) (o : Operation) (r1 r2 : Response) :
  wf s → hashes s = hashes t →
  ∃ s' t' r',
    Perform s o r1 = Ok (s', r') ∧ Perform t o r2 = Ok (t', r')
    ∧ wf s' ∧ hashes s' = hashes t'.
Proof.
  intros Hs Hh. pose proof (wf_hashes s t Hh Hs) as Ht.
  destruct (Operation_cases o)
    as [(w & Hw & Hn)|[[k ->]|[(k & v & ->)|[[k ->]|[->|Hu]]]]].
  - rewrite !(Perform_bad_arity _ _ _ _ Hw Hn). eauto 10.
  - rewrite !get_spec by done.
    rewrite (value_of_hashes s t k Hh). eauto 10.
  - rewrite !put_spec by done.
    rewrite (value_of_hashes s t k Hh). eexists _, _, _.
    do 2 (split; [done|]). split; [by apply wf_after_put|].
    unfold after_put. simpl. by rewrite Hh.
  - rewrite !del_spec by done.
    rewrite (value_of_hashes s t k Hh). eexists _, _, _.
    do 2 (split; [done|]). split; [by apply wf_after_del|].
    unfold after_del. simpl. by rewrite Hh.
  - rewrite !Perform_keys, Hh. eauto 10.
  - rewrite !(Perform_unknown _ _ _ Hu). eauto 10.
Qed.

(** X7. The logging switch and the log channel have no influence on what
    an Operation answers or on the shards it leaves: two stores with the
    same shards give the same Response and end with the same shards. *)
Theorem logging_is_transparent
    (s t : God) (o : Operation) (r1 r2 : Response) :
  wf s → hashes s = hashes t →
  ∃ s' t' r',
    Perform s o r1 = Ok (s', r') ∧ Perform t o r2 = Ok (t', r')
    ∧ hashes s' = hashes t'.
Proof.
  intros Hs Hh.
  destruct (Perform_same_shards s t o r1 r2 Hs Hh)
    as (s' & t' & r' & ? & ? & _ & ?).
  by exists s', t', r'.
Qed.

(** X8. Replaying a sequence of records does to the shards what serving
    the same Operations live does: [load]'s loop, started on a store with
    the same shards as a live store, ends with the shards the live session
    ends with, whatever the records are. *)
Theorem replay_matches_live
    (s t : God) (os : list Operation) (r : Response) :
  wf s → hashes s = hashes t →
  ∃ s' rs t',
    PerformAll s os = Ok (s', rs) ∧ load_loop t os r = Ok t'
    ∧ hashes s' = hashes t'.
Proof.
  revert s t r. induction os as [|o os IH]; intros s t r Hs Hh.
  { by exists s, [], t. }
  destruct (Perform_same_shards s t o {| Result_ := 0; Parts := [] |} r
              Hs Hh) as (s1 & t1 & r1 & HPs & HPt & Hs1 & Hh1).
  destruct (IH s1 t1 r1 Hs1 Hh1) as (s2 & rs & t2 & HA & HL & Hh2).
  exists s2, (r1 :: rs), t2. split; [by eapply PerformAll_step|].
  split; [|done]. simpl. by rewrite HPt.
Qed.

(** ** Keys stay in the shard they are routed to *)

Lemma placed_alter_insert (self hs : God) (k v : string) :
  placed self →
  hashes hs = alter (<[k := v]>) (route k) (hashes self) →
  placed hs.
Proof.
  intros Hp Hh i hash k' Hi Hk'. rewrite Hh in Hi.
  destruct (decide (i = route k)) as [->|Hne].
  - rewrite list_lookup_alter_eq in Hi.
    destruct (hashes self !! route k) as [old|] eqn:Ho; simplify_eq/=.
    destruct (decide (k = k')) as [->|Hkk]; [done|].
    rewrite lookup_insert_ne in Hk' by done. by eapply Hp.
  - rewrite list_lookup_alter_ne in Hi by done. by eapply Hp.
Qed.

Lemma placed_alter_delete (self hs : God) (k : string) :
  placed self →
  hashes hs = alter (delete k) (route k) (hashes self) →
  placed hs.
Proof.
  intros Hp Hh i hash k' Hi Hk'. rewrite Hh in Hi.
  destruct (decide (i = route k)) as [->|Hne].
  - rewrite list_lookup_alter_eq in Hi.
    destruct (hashes self !! route k) as [old|] eqn:Ho; simplify_eq/=.
    destruct (decide (k = k')) as [->|Hkk].
    + rewrite lookup_delete_eq in Hk'. by destruct Hk'.
    + rewrite lookup_delete_ne in Hk' by done. by eapply Hp.
  - rewrite list_lookup_alter_ne in Hi by done. by eapply Hp.
Qed.

Lemma Perform_placed (self : God) (o : Operation) (r : Response) :
  wf self → placed self →
  ∃ self' r',
    Perform self o r = Ok (self', r')
    ∧ wf self' ∧ placed self' ∧ doLog self' = doLog self
    ∧ (doLog self = false → logChannel self' = logChannel self).
Proof.
  intros Hwf Hp.
  destruct (Operation_cases o)
    as [(w & Hw & Hn)|[[k ->]|[(k & v & ->)|[[k ->]|[->|Hu]]]]].
  - rewrite (Perform_bad_arity _ _ _ _ Hw Hn). eauto 10.
  - rewrite get_spec by done. eauto 10.
  - rewrite put_spec by done. eexists _, _. split; [done|].
    split; [by apply wf_after_put|].
    split; [by eapply placed_alter_insert|].
    split; [apply doLog_after_put|].
    intros Hd. by rewrite logChannel_after_put, Hd.
  - rewrite del_spec by done. eexists _, _. split; [done|].
    split; [by apply wf_after_del|].
    split; [by eapply placed_alter_delete|done].
  - rewrite Perform_keys. eauto 10.
  - rewrite (Perform_unknown _ _ _ Hu). eauto 10.
Qed.

Lemma placed_new (d : string) (l : list Operation) (b : bool) :
  placed {| hashes := replicate (Z.to_nat shards) ∅; dir := d;
            logChannel := l; doLog := b |}.
Proof.
  intros i hash k Hi Hk. cbn [hashes] in Hi.
  apply lookup_replicate in Hi as [-> _].
  rewrite lookup_empty in Hk. by destruct Hk.
Qed.

(** X9. Every key a shard holds is routed to that shard, and no Operation
    breaks this: served on a store where it holds, an Operation leaves a
    store where it holds. *)
Theorem keys_stay_in_their_shard
    (self : God) (o : Operation) (r : Response) :
  wf self → placed self →
  ∃ self' r',
    Perform self o r = Ok (self', r')
    ∧ ∀ i hash k,
        hashes self' !! i = Some hash → is_Some (hash !! k) →
        i = Z.to_nat (Z.land (HashCode k) (shards - 1)).
Proof.
  intros Hwf Hp.
  destruct (Perform_placed self o r Hwf Hp)
    as (self' & r' & HP & _ & Hp' & _).
  exists self', r'. split; [done|]. exact Hp'.
Qed.

(** ** KEYS *)

Lemma Each_keys_elem (hash : gmap string string) (k : string) :
  k ∈ Each_keys hash ↔ is_Some (hash !! k).
Proof.
  unfold Each_keys. rewrite list_elem_of_fmap. split.
  - intros [[k' v] [-> Hkv]]. apply elem_of_map_to_list in Hkv. by exists v.
  - intros [v Hv]. exists (k, v). split; [done|].
    by apply elem_of_map_to_list.
Qed.

Lemma concat_keys_elem (hs : list (gmap string string)) (k : string) :
  k ∈ concat (Each_keys <$> hs)
  ↔ ∃ i hash, hs !! i = Some hash ∧ is_Some (hash !! k).
Proof.
  induction hs as [|hash hs IH]; simpl.
  - split; [by intros ?%elem_of_nil|by intros (i & ? & ? & _)].
  - rewrite elem_of_app, IH, Each_keys_elem. split.
    + intros [Hk|(i & hash' & Hi & Hk)]; [by exists 0%nat, hash|].
      by exists (S i), hash'.
    + intros ([|i] & hash' & Hi & Hk); simplify_eq/=; [by left|].
      right. by exists i, hash'.
Qed.

Lemma concat_keys_NoDup
    (hs : list (gmap string string)) (idx : string → nat) (n : nat) :
  (∀ i hash k, hs !! i = Some hash → is_Some (hash !! k) →
               (n + i)%nat = idx k) →
  NoDup (concat (Each_keys <$> hs)).
Proof.
  revert n. induction hs as [|hash hs IH]; intros n Hidx; simpl.
  { constructor. }
  apply NoDup_app. split; [apply NoDup_fst_map_to_list|]. split.
  - intros k Hk%Each_keys_elem (i & hash' & Hi & Hk')%concat_keys_elem.
    pose proof (Hidx 0%nat hash k eq_refl Hk).
    pose proof (Hidx (S i) hash' k Hi Hk'). lia.
  - apply (IH (S n)). intros i hash' k Hi Hk.
    rewrite <- (Hidx (S i) hash' k Hi Hk). lia.
Qed.

(** X10. KEYS with no parameter answers OK, leaves the store as it is, and
    lists the keys the store holds a value for, each of them once. *)
Theorem keys_lists_every_key_once (self : God) (r : Response) :
  wf self → placed self →
  ∃ ks,
    Perform self (op KEYS []) r = Ok (self, {| Result_ := OK; Parts := ks |})
    ∧ NoDup ks
    ∧ ∀ k, k ∈ ks ↔ is_Some (value_of self k).
Proof.
  intros Hwf Hp. eexists. split; [apply Perform_keys|]. split.
  - apply (concat_keys_NoDup _ route 0). intros i hash k Hi Hk.
    by apply (Hp i hash k).
  - intros k. rewrite concat_keys_elem. unfold value_of. split.
    + intros (i & hash & Hi & Hk).
      rewrite <- (Hp i hash k Hi Hk), Hi. done.
    + intros Hv. destruct (hashes self !! route k) as [hash|] eqn:Hi.
      * by exists (route k), hash.
      * by destruct Hv.
Qed.

(** ** Opening a directory *)

Lemma load_loop_keeps (t : God) (ops : list Operation) (r : Response) :
  wf t → placed t → doLog t = false →
  ∃ t', load_loop t ops r = Ok t'
        ∧ wf t' ∧ placed t' ∧ doLog t' = false
        ∧ logChannel t' = logChannel t ∧ dir t' = dir t.
Proof.
  revert t r. induction ops as [|o ops IH]; intros t r Hwf Hp Hd.
  { by exists t. }
  destruct (Perform_placed t o r Hwf Hp)
    as (t1 & r1 & HP & Hwf1 & Hp1 & Hd1 & HC1).
  destruct (Perform_keeps t o r Hwf) as (t1' & r1' & HP' & _ & Hdir & _).
  rewrite HP in HP'. injection HP' as <- <-.
  rewrite Hd in Hd1.
  destruct (IH t1 r1 Hwf1 Hp1 Hd1) as (t' & HL & ? & ? & ? & HC & Hdir').
  exists t'. simpl. rewrite HP. simpl.
  do 4 (split; [done|]). split; [|congruence].
  rewrite HC. by apply HC1.
Qed.

(** X11. Opening a directory whose files can be read gives a store: it has
    512 shards, every key in the shard it is routed to, the directory name
    it was given, logging switched on and an empty log channel (nothing
    that was replayed is logged again), and its shards are those that
    replaying the history of the directory on empty shards produces. *)
Theorem NewGod_opens (fs : gmap string File) (d : string) :
  ∃ g t,
    NewGod fs d = Ok (Some g, None)
    ∧ length (hashes g) = 512%nat
    ∧ placed g
    ∧ dir g = d ∧ doLog g = true ∧ logChannel g = []
    ∧ load_loop {| hashes := replicate (Z.to_nat shards) ∅; dir := d;
                   logChannel := []; doLog := false |}
                (history fs) {| Result_ := 0; Parts := [] |}
      = Ok t
    ∧ hashes g = hashes t.
Proof.
  set (t0 := mkGod _ d [] false).
  destruct (load_loop_keeps t0 (history fs) {| Result_ := 0; Parts := [] |})
    as (t & HL & Hwf & Hp & Hd & HC & Hdir);
    [exact (length_replicate _ _)|apply placed_new|done|].
  exists (set_doLog t true), t.
  split; [unfold NewGod; fold t0; by rewrite loadAll_replays, HL|].
  by repeat split.
Qed.

Lemma file_records_insert
    (fs : gmap string File) (name : string) (ops : list Operation)
    (e1 e2 : decode_error) (n : string) :
  file_records (<[name := {| records := ops; trailer := e1 |}]> fs) n
  = file_records (<[name := {| records := ops; trailer := e2 |}]> fs) n.
Proof.
  unfold file_records. destruct (decide (name = n)) as [->|Hne].
  - by rewrite !lookup_insert_eq.
  - by rewrite !lookup_insert_ne.
Qed.

(** X12. What the decoder reports at the end of a file plays no part in
    start-up: a file whose stream breaks off with an error opens like the
    same file ending cleanly, its records before the break are applied and
    the files after it are still loaded. *)
Theorem decode_error_is_ignored
    (fs : gmap string File) (name : string) (ops : list Operation)
    (e1 e2 : decode_error) (d : string) :
  NewGod (<[name := {| records := ops; trailer := e1 |}]> fs) d
  = NewGod (<[name := {| records := ops; trailer := e2 |}]> fs) d.
Proof.
  unfold NewGod. rewrite !loadAll_replays. do 3 f_equal.
  unfold history. rewrite !dom_insert_L. f_equal.
  - apply file_records_insert.
  - f_equal. apply list_fmap_ext. intros _ n _. apply file_records_insert.
Qed.

End StoreLaws.

(** ** Printing a Result *)

Lemma Result_flags_low (r : Result) :
  Result_flags (Z.land r 63) = Result_flags r.
Proof.
  unfold Result_flags. rewrite <- !Z.land_assoc.
  change (Z.land 63 OK) with OK. change (Z.land 63 MISSING) with MISSING.
  change (Z.land 63 EXISTS) with EXISTS.
  change (Z.land 63 UNKNOWN) with UNKNOWN.
  change (Z.land 63 BAD) with BAD. change (Z.land 63 ARITY) with ARITY.
  done.
Qed.

Lemma Result_String_distinct_below_64 :
  Forall (λ a, Forall (λ b, Result_String a = Result_String b → a = b)
                      (seqZ 0 64))
         (seqZ 0 64).
Proof. apply (bool_decide_unpack _). vm_compute. exact I. Qed.

(** X22. [Result.String] tells any two combinations of the six flags
    apart: two Results that print alike agree on the six flag bits. *)
Theorem Result_String_tells_flags_apart (r1 r2 : Result) :
  Result_String r1 = Result_String r2 → Z.land r1 63 = Z.land r2 63.
Proof.
  intros Hs.
  assert (∀ r, Z.land r 63 ∈ seqZ 0 64) as Hin.
  { intros r. apply elem_of_seqZ. change 63 with (Z.ones 6).
    rewrite Z.land_ones by lia.
    pose proof (Z.mod_pos_bound r (2 ^ 6) eq_refl). lia. }
  pose proof Result_String_distinct_below_64 as Hall.
  rewrite Forall_forall in Hall. specialize (Hall _ (Hin r1)).
  rewrite Forall_forall in Hall. apply (Hall _ (Hin r2)).
  unfold Result_String. by rewrite !Result_flags_low.
Qed.

(** ** Runs of the store laws on the concrete hash *)

Lemma placed_fresh : placed fresh.
Proof. exact (placed_new "data" [] true). Qed.

Lemma wf_one_key : wf one_key.
Proof. apply wf_after_put, wf_fresh. Qed.

Lemma placed_one_key : placed one_key.
Proof. by apply (placed_alter_insert fresh one_key "a" "1" placed_fresh). Qed.

Lemma Perform_never_panics_witness :
  ∃ self' r',
    Perform fresh (op 9 ["x"]) r0 = Ok (self', r')
    ∧ length (hashes self') = 512%nat
    ∧ dir self' = dir fresh ∧ doLog self' = doLog fresh.
Proof. apply (Perform_never_panics fresh (op 9 ["x"]) r0 wf_fresh). Defined.

Lemma only_put_and_delete_write_witness :
  ∃ r', Perform one_key (op DELETE ["a"; "b"]) r0 = Ok (one_key, r').
Proof.
  apply (only_put_and_delete_write one_key (op DELETE ["a"; "b"]) r0).
  - exact wf_one_key.
  - reflexivity.
  - reflexivity.
Defined.

Lemma put_changes_one_key_witness :
  ∃ self',
    Perform one_key (op PUT ["b"; "2"]) r0
    = Ok (self', write_response (value_of one_key "b"))
    ∧ wf self'
    ∧ value_of self' "b" = Some "2"
    ∧ ∀ k', k' ≠ "b" → value_of self' k' = value_of one_key k'.
Proof. apply (put_changes_one_key one_key "b" "2" r0 wf_one_key). Defined.

Lemma del_changes_one_key_witness :
  ∃ self',
    Perform one_key (op DELETE ["a"]) r0
    = Ok (self', write_response (value_of one_key "a"))
    ∧ wf self'
    ∧ value_of self' "a" = None
    ∧ ∀ k', k' ≠ "a" → value_of self' k' = value_of one_key k'.
Proof. apply (del_changes_one_key one_key "a" r0 wf_one_key). Defined.

Lemma del_idempotent_witness :
  ∃ s1 r1,
    Perform one_key (op DELETE ["a"]) r0 = Ok (s1, r1)
    ∧ Perform s1 (op DELETE ["a"]) r0
      = Ok (s1, {| Result_ := Z.lor OK MISSING; Parts := [""] |}).
Proof. apply (del_idempotent one_key "a" r0 r0 wf_one_key). Defined.

Lemma log_receives_the_puts_witness :
  ∃ self' rs,
    PerformAll fresh session = Ok (self', rs)
    ∧ length rs = length session
    ∧ logChannel self'
      = (logChannel fresh
         ++ if doLog fresh then List.filter sent session else [])%list.
Proof. apply (log_receives_the_puts fresh session wf_fresh). Defined.

Lemma logging_is_transparent_witness :
  ∃ s' t' r',
    Perform one_key (op PUT ["a"; "2"]) r0 = Ok (s', r')
    ∧ Perform (set_doLog one_key false) (op PUT ["a"; "2"]) r0 = Ok (t', r')
    ∧ hashes s' = hashes t'.
Proof.
  apply (logging_is_transparent one_key (set_doLog one_key false)
           (op PUT ["a"; "2"]) r0 r0 wf_one_key).
  reflexivity.
Defined.

Lemma replay_matches_live_witness :
  ∃ s' rs t',
    PerformAll fresh session = Ok (s', rs)
    ∧ load_loop (set_doLog fresh false) session r0 = Ok t'
    ∧ hashes s' = hashes t'.
Proof.
  apply (replay_matches_live fresh (set_doLog fresh false) session r0
           wf_fresh).
  reflexivity.
Defined.

Lemma keys_stay_in_their_shard_witness :
  ∃ self' r',
    Perform one_key (op PUT ["b"; "2"]) r0 = Ok (self', r')
    ∧ ∀ i hash k,
        hashes self' !! i = Some hash → is_Some (hash !! k) →
        i = Z.to_nat (Z.land (HashCode k) (shards - 1)).
Proof.
  apply (keys_stay_in_their_shard one_key (op PUT ["b"; "2"]) r0
           wf_one_key placed_one_key).
Defined.

Lemma keys_lists_every_key_once_witness :
  ∃ ks,
    Perform one_key (op KEYS []) r0
    = Ok (one_key, {| Result_ := OK; Parts := ks |})
    ∧ NoDup ks
    ∧ ∀ k, k ∈ ks ↔ is_Some (value_of one_key k).
Proof.
  apply (keys_lists_every_key_once one_key r0 wf_one_key placed_one_key).
Defined.

Lemma Result_String_tells_flags_apart_witness :
  Z.land (Z.lor OK EXISTS) 63 = Z.land (Z.lor (Z.lor OK EXISTS) 64) 63.
Proof.
  apply (Result_String_tells_flags_apart
           (Z.lor OK EXISTS) (Z.lor (Z.lor OK EXISTS) 64)).
  vm_compute. reflexivity.
Defined.

Lemma replay_without_delete_witness : replay_rebuilds 7 session.
Proof. apply (replay_without_delete 7 session). repeat constructor. Defined.

Lemma NewGod_history_witness :
  NewGod one_log "data" = NewGod three_files "data".
Proof.
  apply (NewGod_history one_log three_files "data").
  vm_compute. reflexivity.
Defined.

(** * Further properties of the ring node *)

Section RingLaws.
Context {Ring Net : Type}.
Context `{Common Ring} `{RingView Ring} `{Transport Net} `{Gossip Net}.

(** The view after the Remotes of a list were removed one by one. *)
Lemma RemoveNode_Ok (self self' : Node Ring) (remote : Remote) :
  RemoveNode self remote = Ok self' →
  Addr remote ≠ addr self
  ∧ self' = set_ring self (Remove remote (ring self)).
Proof.
  unfold RemoveNode, GetAddr. case_decide; [done|].
  intros [= <-]. done.
Qed.

(** X13. When [pingPredecessor] returns, the predecessor in the view it
    leaves has just answered the ping; the view is the one it started
    with less the Remotes it removed on the way, none of which carries the
    node's own address; position, address and state are untouched. *)
Theorem pingPredecessor_leaves_live_predecessor
    (fuel : nat) (net net' : Net) (self self' : Node Ring) :
  pingPredecessor fuel net self = Ok (net', self') →
  (∃ net0, Call_Ping net0 (GetPredecessor self') = (net', true))
  ∧ (∃ removed,
       ring self' = foldl (λ rg x, Remove x rg) (ring self) removed
       ∧ Forall (λ x, Addr x ≠ addr self) removed)
  ∧ position self' = position self
  ∧ addr self' = addr self
  ∧ state self' = state self.
Proof.
  revert net self. induction fuel as [|fuel IH]; intros net self; [done|].
  simpl. destruct (Call_Ping net (GetPredecessor self)) as [net1 [|]] eqn:HC.
  - intros [= <- <-]. split; [by exists net|].
    split; [by exists []|done].
  - destruct (RemoveNode self (GetPredecessor self)) as [s1| |] eqn:HR;
      [|done|done].
    apply RemoveNode_Ok in HR as [Hne ->]. simpl. intros HP.
    destruct (IH _ _ HP) as (Hlive & (removed & Hring & Hrem) & ? & ? & ?).
    split; [done|]. split; [|done].
    exists (GetPredecessor self :: removed). split; [done|].
    by constructor.
Qed.

(** X14. When [GetSuccessor] returns, either the node itself is the
    predecessor (or the exact match) of the key in the view it leaves and
    the answer is the successor in that view, or the answer is the reply of
    that predecessor (or match), which was reached; the view is the one it
    started with less the Remotes it removed, never the node itself, and
    position, address and state are untouched. *)
Theorem GetSuccessor_answer
    (fuel : nat) (net net' : Net) (self self' : Node Ring)
    (key : list Byte.byte) (answer : Remote) :
  GetSuccessor fuel net self key = Ok (net', self', answer) →
  (let '(p, m, s) := Remotes (ring self') key in
   Addr (default p m) = addr self ∧ answer = s
   ∨ Addr (default p m) ≠ addr self
     ∧ ∃ net0, Call_GetSuccessor net0 (default p m) key
               = (net', Some answer))
  ∧ (∃ removed,
       ring self' = foldl (λ rg x, Remove x rg) (ring self) removed
       ∧ Forall (λ x, Addr x ≠ addr self) removed)
  ∧ position self' = position self
  ∧ addr self' = addr self
  ∧ state self' = state self.
Proof.
  revert net self. induction fuel as [|fuel IH]; intros net self; [done|].
  simpl. destruct (Remotes (ring self) key) as [[p m] s] eqn:HR.
  replace (match m with Some m0 => m0 | None => p end) with (default p m)
    by by destruct m.
  unfold GetAddr. case_decide as Hp.
  - destruct (Call_GetSuccessor net (default p m) key)
      as [net1 [reply|]] eqn:HC.
    + intros [= <- <- <-]. rewrite HR.
      split; [right; split; [done|by exists net]|].
      split; [by exists []|done].
    + destruct (RemoveNode self s) as [s1| |] eqn:HRm; [|done|done].
      apply RemoveNode_Ok in HRm as [Hne ->]. simpl. intros HG.
      destruct (IH _ _ HG) as (Hans & (removed & Hring & Hrem) & ? & ? & ?).
      split; [exact Hans|]. split; [|done].
      exists (s :: removed). split; [done|]. by constructor.
  - intros [= <- <- <-]. rewrite HR.
    split; [left; split; [|done]|].
    + by destruct (decide (Addr (default p m) = addr self)).
    + split; [by exists []|done].
Qed.

(** X15. A round of [notifySuccessor] panics in exactly one situation:
    the successor of the node's position carries the node's own address
    (the node is alone in its view, or shares its address) and the call to
    it fails.  In every other case the round returns, with position,
    address and state untouched. *)
Theorem notifySuccessor_panics_only_on_itself (net : Net) (self : Node Ring) :
  let successor := (Remotes (ring self) (GetPosition self)).2 in
  ((∃ msg, notifySuccessor net self = Panic msg)
   ↔ Addr successor = addr self
     ∧ (Call_Notify net successor (remote self)).2 = None)
  ∧ (∀ net' self',
       notifySuccessor net self = Ok (net', self') →
       position self' = position self
       ∧ addr self' = addr self ∧ state self' = state self)
  ∧ notifySuccessor net self ≠ Timeout.
Proof.
  unfold notifySuccessor, RemoveNode, GetAddr.
  destruct (Remotes (ring self) (GetPosition self)) as [[p m] s]. simpl.
  destruct (Call_Notify net s (remote self)) as [net1 [nodes|]]; simpl.
  - case_decide;
      (split; [split; [by intros [? ?]|by intros [_ ?]]|]);
      (split; [by intros net' self' [= <- <-]|done]).
  - case_decide as Ha; simpl.
    + split; [split; [done|by eexists]|]. split; [done|done].
    + split; [split; [by intros [? ?]|by intros [? _]]|].
      split; [|done]. by intros net' self' [= <- <-].
Qed.


End RingLaws.

(** * Properties of the lifecycle *)

Section LifecycleLaws.
Context {Ring Net Listener Api : Type}.
Context `{Common Ring} `{RingView Ring} `{Host Net Listener Api}.

#[local] Abbreviation server := (Server Ring Listener Api).

Lemma set_node_same (self : server) : set_node self (node self) = self.
Proof. by destruct self. Qed.

Lemma Start_listen_keeps (net net' : Net) (self self' : server)
    (err : option string) :
  Start_listen net self = (net', self', err) →
  state (node self') = state (node self)
  ∧ exports self' = exports self.
Proof.
  unfold Start_listen.
  destruct (ResolveTCPAddr net _) as [net1 [e|a]]; [by intros [= <- <- <-]|].
  destruct (ListenTCP net1 a) as [net2 [e|l]]; [by intros [= <- <- <-]|].
  destruct (RegisterName NewServer "Node" None) as [srv [e|]];
    [by intros [= <- <- <-]|].
  destruct (register_exports srv _) as [srv' [e|]];
    by intros [= <- <- <-].
Qed.

Lemma Start_rejected (net : Net) (self : server) :
  state (node self) ≠ created →
  Start net self
  = (net, self,
     Some (String_ (node self)
           ++ " can only be started when in state 'created'")).
Proof. intros Hs. unfold Start, changeState. by rewrite decide_False. Qed.

Lemma Start_from_created (net net' : Net) (self self' : server)
    (err : option string) :
  state (node self) = created →
  Start net self = (net', self', err) →
  state (node self') = started ∧ exports self' = exports self.
Proof.
  intros Hs. unfold Start, changeState. rewrite decide_True by done. simpl.
  case_decide.
  - destruct (findAddress net) as [net1 [e|a]]; [by intros [= <- <- <-]|].
    intros HL. by apply Start_listen_keeps in HL as [-> ->].
  - intros HL. by apply Start_listen_keeps in HL as [-> ->].
Qed.

Lemma Stop_rejected (net : Net) (self : server) :
  state (node self) ≠ started → Stop net self = (net, self).
Proof.
  intros Hs. unfold Stop, changeState. rewrite decide_False by done.
  by rewrite set_node_same.
Qed.

Lemma Export_rejected (self : server) (name : string) (api : Api) :
  state (node self) ≠ created →
  Export self name api
  = (self, Some "%!v(MISSING) can only export when in state 'created'").
Proof.
  intros Hs. unfold Export, hasState. by rewrite bool_decide_false.
Qed.

Lemma Stop_is_final_aux (net net1 : Net) (self s1 : server) :
  state (node self) = started →
  Stop net self = (net1, s1) →
  state (node s1) = stopped ∧ exports s1 = exports self.
Proof.
  intros Hs. unfold Stop, changeState. rewrite decide_True by done.
  cbn [listener set_node].
  by destruct (listener self); intros [= <- <-].
Qed.

(** X17. A node starts at most once.  Whatever comes of the first [Start]
    of a created node, success or an error from the network, the node is
    then in state started: a further [Start] returns the error "can only be
    started when in state 'created'" and an [Export] returns an error, both
    leaving the node and the network as they are. *)
Theorem Start_only_once
    (net net1 : Net) (self s1 : server) (err : option string) :
  state (node self) = created →
  Start net self = (net1, s1, err) →
  state (node s1) = started
  ∧ exports s1 = exports self
  ∧ (∀ net2,
       Start net2 s1
       = (net2, s1,
          Some (String_ (node s1)
                ++ " can only be started when in state 'created'")))
  ∧ (∀ name api, ∃ msg, Export s1 name api = (s1, Some msg)).
Proof.
  intros Hs HS.
  destruct (Start_from_created _ _ _ _ _ Hs HS) as [Hst Hex].
  split; [done|]. split; [done|]. split.
  - intros net2. apply Start_rejected. by rewrite Hst.
  - intros name api. eexists. apply Export_rejected. by rewrite Hst.
Qed.

(** X18. [Stop] of a started node closes its listener, if it has one, and
    puts the node in state stopped, for good: a further [Stop] changes
    nothing and [Start] returns an error. *)
Theorem Stop_is_final (net net1 : Net) (self s1 : server) :
  state (node self) = started →
  Stop net self = (net1, s1) →
  state (node s1) = stopped
  ∧ net1 = match listener self with Some l => Close net l | None => net end
  ∧ exports s1 = exports self
  ∧ ring (node s1) = ring (node self)
  ∧ (∀ net2, Stop net2 s1 = (net2, s1))
  ∧ (∀ net2, ∃ msg, Start net2 s1 = (net2, s1, Some msg)).
Proof.
  intros Hs. unfold Stop, changeState. rewrite decide_True by done.
  cbn [listener set_node].
  intros HS.
  assert (s1 = set_node self (set_state (node self) stopped)
          ∧ net1 = match listener self with
                   | Some l => Close net l | None => net end) as [-> ->].
  { by destruct (listener self); injection HS as <- <-. }
  split; [done|]. split; [done|]. split; [done|]. split; [done|]. split.
  - intros net2. by apply Stop_rejected.
  - intros net2. eexists. by apply Start_rejected.
Qed.

Lemma lifecycle_step_forward
    (net net' : Net) (self self' : server) (c : lifecycle_call Api) :
  (created ≤ state (node self) ≤ stopped)%Z →
  lifecycle_step net self c = (net', self') →
  (state (node self) ≤ state (node self') ≤ stopped)%Z
  ∧ (state (node self) ≠ created → exports self' = exports self).
Proof.
  intros Hs. destruct c as [name api| |]; simpl.
  - unfold Export, hasState. case_bool_decide as Hc.
    + intros [= <- <-]. simpl. split; [lia|done].
    + intros [= <- <-]. split; [lia|done].
  - destruct (decide (state (node self) = created)) as [Hc|Hc].
    + destruct (Start net self) as [[net1 s1] e] eqn:HS. simpl.
      intros [= <- <-].
      destruct (Start_from_created _ _ _ _ _ Hc HS) as [-> ->].
      rewrite Hc. by compute.
    + rewrite Start_rejected by done. simpl. intros [= <- <-].
      split; [lia|done].
  - destruct (decide (state (node self) = started)) as [Hc|Hc].
    + destruct (Stop net self) as [net1 s1] eqn:HS. intros [= <- <-].
      destruct (Stop_is_final_aux net net1 self s1 Hc HS) as [-> ->].
      rewrite Hc. by compute.
    + rewrite Stop_rejected by done. intros [= <- <-]. split; [lia|done].
Qed.

(** X19. The lifecycle only moves forward.  Over any sequence of
    [Export], [Start] and [Stop] calls, whatever the network does, the state
    never goes back (created, then started, then stopped), and from the
    moment the node has left state created its export table no longer
    changes. *)
Theorem lifecycle_moves_forward
    (cs : list (lifecycle_call Api)) (net net' : Net) (self self' : server) :
  (created ≤ state (node self) ≤ stopped)%Z →
  lifecycle_run net self cs = (net', self') →
  (state (node self) ≤ state (node self') ≤ stopped)%Z
  ∧ (state (node self) ≠ created → exports self' = exports self).
Proof.
  revert net self. induction cs as [|c cs IH]; intros net self Hs.
  { intros [= <- <-]. split; [lia|done]. }
  simpl. destruct (lifecycle_step net self c) as [net1 s1] eqn:Hstep.
  destruct (lifecycle_step_forward _ _ _ _ _ Hs Hstep) as [Hs1 Hex1].
  intros Hrun.
  destruct (IH net1 s1) as [Hs2 Hex2]; [unfold created in *; lia|done|].
  split; [lia|]. intros Hne. rewrite Hex2, Hex1; [done|done|].
  unfold created in *. lia.
Qed.

End LifecycleLaws.

(** ** Runs of the node laws on the concrete ring and network *)

Lemma pingPredecessor_leaves_live_predecessor_witness :
  (∃ net0,
     Call_Ping net0 (GetPredecessor (set_ring nodeA [remoteA; remoteB]))
     = (netC_down, true))
  ∧ (∃ removed,
       [remoteA; remoteB]
       = foldl (λ rg x, Remove x rg) [remoteA; remoteB; remoteC] removed
       ∧ Forall (λ x, Addr x ≠ "a:9191") removed)
  ∧ [Byte.x10] = [Byte.x10]
  ∧ "a:9191" = "a:9191"
  ∧ started = started.
Proof.
  apply (pingPredecessor_leaves_live_predecessor 2 netC_down netC_down
           nodeA (set_ring nodeA [remoteA; remoteB])).
  reflexivity.
Defined.

Lemma GetSuccessor_answer_witness :
  Addr remoteB = "a:9191" ∧ remoteC = remoteC
  ∨ Addr remoteB ≠ "a:9191"
    ∧ ∃ net0, Call_GetSuccessor net0 remoteB [Byte.x50]
              = (netC_down, Some remoteC).
Proof.
  exact (proj1 (GetSuccessor_answer 1 netC_down netC_down nodeA nodeA
                  [Byte.x50] remoteC eq_refl)).
Defined.


Lemma Start_only_once_witness :
  (Start netB_down serverB).2 = Some "listen tcp: address already in use"
  ∧ state (node (Start netB_down serverB).1.2) = started
  ∧ ∀ net2, ∃ msg,
      Start net2 (Start netB_down serverB).1.2
      = (net2, (Start netB_down serverB).1.2, Some msg).
Proof.
  split; [reflexivity|].
  destruct (Start netB_down serverB) as [[net1 s1] err] eqn:HS.
  destruct (Start_only_once netB_down net1 serverB s1 err eq_refl HS)
    as (Hst & _ & Hagain & _).
  split; [exact Hst|]. intros net2. eexists. apply Hagain.
Defined.

Lemma Stop_is_final_witness :
  state (node (Stop netB_down (Start netB_down serverA).1.2).2) = stopped.
Proof.
  assert (state (node (Start netB_down serverA).1.2) = started) as Hc
    by (vm_compute; reflexivity).
  destruct (Stop netB_down (Start netB_down serverA).1.2)
    as [net1 s1] eqn:HS.
  destruct (Stop_is_final netB_down net1 (Start netB_down serverA).1.2 s1
              Hc HS) as [Hst _].
  exact Hst.
Defined.

Lemma lifecycle_moves_forward_witness :
  (created ≤ state (node (lifecycle_run netB_down serverA calls).2)
   ≤ stopped)%Z
  ∧ exports (lifecycle_run netB_down serverA calls).2 = {["kv" := ()]}.
Proof.
  split; [|vm_compute; reflexivity].
  destruct (lifecycle_run netB_down serverA calls) as [net1 s1] eqn:HR.
  destruct (lifecycle_moves_forward calls netB_down net1 serverA s1)
    as [Hs _].
  - split; by compute.
  - exact HR.
  - exact Hs.
Defined.
